(** * objectivex: negative log-likelihood and analytic gradient of a mixture HMM

    A shallow embedding of [src/objectivex.cpp].

    Conventions of the embedding.

    - [double] is an abstract carrier [D] with the operations the source
      applies to it ([Arith]).  No law of arithmetic is assumed by the
      definitions; the theorems that need exact arithmetic say so through
      the hypotheses of [Section ExactRing] and [Section ExactField].
      The carrier is instantiated twice: by the rationals ([QcInst], exact
      arithmetic) and by binary64 ([Binary64], the arithmetic of the
      source).
    - R vectors are flat lists; the Armadillo views over them are read
      column-major.  A single element read [A(i,j,k)] is a total lookup
      that yields zero outside the list: there the C++ program raises or
      is undefined, and the value of the model carries no meaning.
      [well_formed] describes the arguments all of whose reads are inside.
    - Dimensions, block sizes, alphabet sizes and observed symbols are
      natural numbers; the three masks keep their integer entries, summed
      without overflow.
    - Every reduction of Armadillo ([accu], [sum], [dot], the matrix
      products) is a left-to-right fold starting from zero.
    - The result is an [option]: [None] stands for a run in which a size
      or view check of Armadillo on the shape of the arguments fails (a
      negative dimension or length, an empty list of blocks, vectors of
      different sizes in [%], a [subvec], [slice] or [rows] outside its
      object); in a build without these checks such a run is undefined. *)

From Stdlib Require Import List ZArith Lia Bool Arith PeanoNat.
From Stdlib Require Import Ring Field QArith Qcanon.
From Stdlib Require Floats.
Import ListNotations.

Set Implicit Arguments.
Local Close Scope Qc_scope.
Local Close Scope Q_scope.
Local Open Scope nat_scope.

(** ** Arithmetic of [double] *)

Class Arith (D : Type) : Type := {
  d0 : D;
  d1 : D;
  dadd : D -> D -> D;
  dsub : D -> D -> D;
  dmul : D -> D -> D;
  ddiv : D -> D -> D;
  dopp : D -> D;
  dexp : D -> D;
  dlog : D -> D;
  dbl_max : D;
  is_finite : D -> bool
}.

(** ** The option monad of failed shape checks *)

Definition bind {A B} (m : option A) (f : A -> option B) : option B :=
  match m with Some a => f a | None => None end.

Notation "x <- m ;; k" := (bind m (fun x => k))
  (at level 61, m at next level, right associativity).

Definition guard (b : bool) : option unit := if b then Some tt else None.

Fixpoint foldM {A S} (f : S -> A -> option S) (l : list A) (s : S) : option S :=
  match l with
  | [] => Some s
  | a :: l' => s' <- f s a ;; foldM f l' s'
  end.

Fixpoint mapM {A B} (f : A -> option B) (l : list A) : option (list B) :=
  match l with
  | [] => Some []
  | a :: l' => b <- f a ;; bs <- mapM f l' ;; Some (b :: bs)
  end.

(** ** Integer vectors: masks and block sizes *)

(** [arma::accu] on an integer view. *)
Definition accu (l : list Z) : Z := fold_left Z.add l 0%Z.

(** [arma::find]: the positions of the nonzero entries, ascending. *)
Fixpoint find_from (off : nat) (l : list Z) : list nat :=
  match l with
  | [] => []
  | x :: l' => if (x =? 0)%Z then find_from (S off) l'
               else off :: find_from (S off) l'
  end.

Definition find (l : list Z) : list nat := find_from 0 l.

(** Rcpp's [cumsum]. *)
Fixpoint cumsum_from (acc : nat) (l : list nat) : list nat :=
  match l with
  | [] => []
  | n :: l' => (acc + n) :: cumsum_from (acc + n) l'
  end.

Definition cumsum (l : list nat) : list nat := cumsum_from 0 l.

(** The number of nonzero entries of a mask. *)
Definition nnz (l : list Z) : nat := length (find l).

(** [sum_{i < n} f i] over the naturals, used to count free entries. *)
Definition nsum (n : nat) (f : nat -> nat) : nat := list_sum (map f (seq 0 n)).

(** The indicator of a nonzero mask entry. *)
Definition nzb (z : Z) : nat := if (z =? 0)%Z then 0 else 1.

(** A mask is an indicator when its entries are 0 or 1. *)
Definition mask01 (l : list Z) : bool :=
  forallb (fun z => (z =? 0)%Z || (z =? 1)%Z) l.

(** The number of states before block [jj]. *)
Definition prefix (ns : list nat) (jj : nat) : nat := list_sum (firstn jj ns).

Section Model.

Context {D : Type} {AD : Arith D}.

(** ** Folds used by the reductions *)

(** [sum_{i < n} f i], accumulated from zero in increasing [i]. *)
Definition dsum (n : nat) (f : nat -> D) : D :=
  fold_left (fun acc i => dadd acc (f i)) (seq 0 n) d0.

(** [prod_{i < n} f i], accumulated from one in increasing [i]
    ([double tmp = 1.0; for (...) tmp *= ...]). *)
Definition dprod (n : nat) (f : nat -> D) : D :=
  fold_left (fun acc i => dmul acc (f i)) (seq 0 n) d1.

(** ** The gradient buffer *)

(** The buffer [grad] with [vals] stored from position [cg] on. *)
Definition write (grad : list D) (cg : nat) (vals : list D) : list D :=
  firstn cg grad ++ vals ++ skipn (cg + length vals) grad.

(** [grad.subvec(cg, cg + |vals| - 1) = vals; countgrad += |vals|], for a
    non-empty [vals]; the state is the pair of [grad] and [countgrad]. *)
Definition put (st : list D * nat) (vals : list D) : option (list D * nat) :=
  let '(grad, cg) := st in
  _ <- guard (cg + length vals <=? length grad) ;;
  Some (write grad cg vals, cg + length vals).

(** The converse for well-shaped arguments: [f] succeeds whenever [seg]
    fits into the buffer. *)
Definition assembles_tot (f : list D * nat -> option (list D * nat)) (seg : list D) : Prop :=
  forall grad cg,
    cg + length seg <= length grad ->
    f (grad, cg) = Some (write grad cg seg, cg + length seg).

(** A step [f] of a pass _assembles_ [seg] when every successful run of it
    writes [seg] at [countgrad] and advances [countgrad] past it. *)
Definition assembles (f : list D * nat -> option (list D * nat)) (seg : list D) : Prop :=
  forall grad cg st',
    cg <= length grad ->
    f (grad, cg) = Some st' ->
    cg + length seg <= length grad /\ st' = (write grad cg seg, cg + length seg).

(** A step [f] _updates the window_ of [n] entries at offset [o countgrad]
    by [u] when every successful run of it replaces these entries by [u]
    of their contents and leaves [countgrad] alone. *)
Definition updates_window (o : nat -> nat) (n : nat)
    (f : list D * nat -> option (list D * nat)) (u : list D -> list D) : Prop :=
  forall grad cg st',
    o cg + n <= length grad ->
    f (grad, cg) = Some st' ->
    st' = (write grad (o cg) (u (firstn n (skipn (o cg) grad))), cg).

(** [v.rows(ind)]. *)
Definition rows (v : list D) (ind : list nat) : option (list D) :=
  _ <- guard (forallb (fun a => a <? length v) ind) ;;
  Some (map (fun a => nth a v d0) ind).

(** [v(j) += x]. *)
Definition add_at (v : list D) (j : nat) (x : D) : list D :=
  firstn j v ++ match skipn j v with
                | [] => []
                | y :: v' => dadd y x :: v'
                end.

(** A counted [for] loop over [0 .. n-1]. *)
Definition loop {S : Type} (n : nat) (body : S -> nat -> S) (s : S) : S :=
  fold_left body (seq 0 n) s.

(** [G.eye(); G.each_row() -= p; G.each_col() %= p.t()] at entry (a, b). *)
Definition jacobian (p : nat -> D) (a b : nat) : D :=
  dmul (dsub (if a =? b then d1 else d0) (p b)) (p a).

(** [G * v] for an n x n matrix [G]. *)
Definition matvec (n : nat) (G : nat -> nat -> D) (v : list D) : list D :=
  map (fun a => dsum n (fun b => dmul (G a b) (nth b v d0))) (seq 0 n).

(** ** The forward and backward recursions *)

(** [internalForwardx] and [internalBackward] are external to the source
    file; they are parameters of the whole development. *)
Variable internalForwardx :
  list D -> list D -> nat * nat * nat -> list D -> list nat -> nat * nat * nat ->
  list D * list D.
Variable internalBackward :
  list D -> list D -> nat * nat * nat -> list nat -> nat * nat * nat -> list D ->
  list D.

(** ** Inputs *)

Record Input : Type := {
  transitionMatrix : list D;
  emissionArray : list D;
  eDims : nat * nat * nat;          (* m, p, r *)
  initialProbs : list D;
  obsArray : list nat;
  oDims : nat * nat * nat;          (* k, n, r *)
  transNZ : list Z;
  emissNZ : list Z;
  initNZ : list Z;
  nSymbols : list nat;
  coefs_nrow : nat;
  coefs : list D;
  X_ : list D;
  numberOfStates : list nat
}.

Record Output : Type := {
  objective : D;
  gradient : list D
}.

Section Run.

Variable inp : Input.

Definition eM : nat := fst (fst (eDims inp)).
Definition eP : nat := snd (fst (eDims inp)).
Definition eR : nat := snd (eDims inp).
Definition oK : nat := fst (fst (oDims inp)).
Definition oN : nat := snd (fst (oDims inp)).
Definition oR : nat := snd (oDims inp).

(** The views of lines 15-21. *)
Definition init (i : nat) : D := nth i (initialProbs inp) d0.
Definition transition (i j : nat) : D := nth (i + j * eM) (transitionMatrix inp) d0.
Definition emission (i v r : nat) : D :=
  nth (i + v * eM + r * (eM * eP)) (emissionArray inp) d0.
Definition obs (k t r : nat) : nat :=
  nth (k + t * oK + r * (oK * oN)) (obsArray inp) 0.
Definition ANZ_mem : list Z := firstn (eM * eM) (transNZ inp).
Definition BNZ_mem : list Z := firstn (eM * (eP - 1) * eR) (emissNZ inp).
Definition INZ_mem : list Z := firstn eM (initNZ inp).
Definition ANZ (i j : nat) : Z := nth (i + j * eM) ANZ_mem 0%Z.
Definition BNZ (i v r : nat) : Z := nth (i + v * eM + r * (eM * (eP - 1))) BNZ_mem 0%Z.
Definition INZ (i : nat) : Z := nth i INZ_mem 0%Z.

Definition q : nat := coefs_nrow inp.
Definition J : nat := length (numberOfStates inp).

(** Line 26: the length of [grad]. *)
Definition grad_len : Z :=
  (accu ANZ_mem + accu BNZ_mem + accu INZ_mem + (Z.of_nat J - 1) * Z.of_nat q)%Z.

(** Lines 27-28: the copy of the coefficients with column 0 zeroed. *)
Definition coef_mem : list D :=
  repeat d0 q ++ skipn q (firstn (q * J) (coefs inp)).
Definition coef (c j : nat) : D := nth (c + j * q) coef_mem d0.

(** Line 29. *)
Definition X (k c : nat) : D := nth (k + c * oK) (X_ inp) d0.

(** Line 30: [exp(X*coef).t()], a J x K matrix. *)
Definition expXcoef (j k : nat) : D :=
  dexp (dsum q (fun c => dmul (X k c) (coef c j))).

(** Line 31: [lweights.is_finite()]. *)
Definition lweights_finite : bool :=
  forallb (fun k => forallb (fun j => is_finite (expXcoef j k)) (seq 0 J)) (seq 0 oK).

(** Line 36: every column is divided by its sum. *)
Definition lweights (j k : nat) : D :=
  ddiv (expXcoef j k) (dsum J (fun j' => expXcoef j' k)).

(** Rcpp's [numberOfStates(jj)] and [cumsumstate(jj)]; the first state of
    block [jj] is [cumsumstate(jj) - numberOfStates(jj)]. *)
Definition nS (jj : nat) : nat := nth jj (numberOfStates inp) 0.
Definition cumsumstate (jj : nat) : nat := nth jj (cumsum (numberOfStates inp)) 0.
Definition base (jj : nat) : nat := cumsumstate jj - nS jj.

(** Modelled from the spec: [reparma], the block-broadcast of a vector of
    J mixture weights (every state of block j receives the weight of
    block j); its definition is not part of the source file. *)
Fixpoint reparma (x : list D) (y : list nat) : list D :=
  match x, y with
  | a :: x', n :: y' => repeat a n ++ reparma x' y'
  | _, _ => []
  end.

(** Lines 38-41: column [k] of [initk]; [%] needs operands of one size. *)
Definition initk_col (k : nat) : option (list D) :=
  let rep := reparma (map (fun j => lweights j k) (seq 0 J)) (numberOfStates inp) in
  _ <- guard (eM =? length rep) ;;
  Some (map (fun s => dmul (init s) (nth s rep d0)) (seq 0 eM)).

Definition initk_cols : option (list (list D)) := mapM initk_col (seq 0 oK).

Definition initk (cols : list (list D)) (i k : nat) : D :=
  nth i (nth k cols []) d0.

(** Lines 43-48.  The two recursions are external: they receive the views
    and return the memory of [alpha] and [scales], respectively [beta],
    read below as m x n x k cubes and an n x k matrix. *)
Definition fwd (cols : list (list D)) : list D * list D :=
  internalForwardx (transitionMatrix inp) (emissionArray inp) (eDims inp)
                   (concat cols) (obsArray inp) (oDims inp).
Definition alpha (cols : list (list D)) (i t k : nat) : D :=
  nth (i + t * eM + k * (eM * oN)) (fst (fwd cols)) d0.
Definition scales (cols : list (list D)) (t k : nat) : D :=
  nth (t + k * oN) (snd (fwd cols)) d0.
Definition beta (cols : list (list D)) (i t k : nat) : D :=
  nth (i + t * eM + k * (eM * oN))
      (internalBackward (transitionMatrix inp) (emissionArray inp) (eDims inp)
                        (obsArray inp) (oDims inp) (snd (fwd cols))) d0.

(** Line 50 and the objective of line 173: [-sum(sum(log(scales)))]. *)
Definition ll (cols : list (list D)) (k : nat) : D :=
  dsum oN (fun t => dlog (scales cols t k)).
Definition neg_loglik (cols : list (list D)) : D :=
  dopp (dsum oK (ll cols)).

Section Passes.

Variable cols : list (list D).

(** [tmp] of lines 72-75, 138-141 and 159-162: the product over all
    channels of the emission probabilities of state [s] at time [t]. *)
Definition emis_all (s k t : nat) : D :=
  loop oR (fun tmp r => dmul tmp (emission s (obs k t r) r)) d1.

(** [tmp] of lines 102-107 and 112-117: the same product without channel [r]. *)
Definition emis_other (r s k t : nat) : D :=
  loop oR (fun tmp r2 => if negb (r2 =? r) then dmul tmp (emission s (obs k t r2) r2)
                         else tmp) d1.

(** *** Transition rows, lines 56-86 *)

Definition indA (jj i : nat) : list nat :=
  find (map (fun j => ANZ (base jj + i) (base jj + j)) (seq 0 (nS jj))).

Definition termA (jj i j t k : nat) : D :=
  ddiv (dmul (dmul (alpha cols (base jj + i) t k) (emis_all (base jj + j) k (t + 1)))
             (beta cols (base jj + j) (t + 1) k))
       (scales cols (t + 1) k).

Definition gradArow (jj i : nat) : list D :=
  loop oK (fun v k =>
    loop (oN - 1) (fun v t =>
      loop (nS jj) (fun v j => add_at v j (termA jj i j t k)) v) v)
    (repeat d0 (nS jj)).

(** One iteration of the loop over [i] (lines 61-83).  The guard is the
    check of [ANZ.row(...).subvec(first, last)]: the block lies inside the
    [m] columns. *)
Definition rowA (jj i : nat) (st : list D * nat) : option (list D * nat) :=
  _ <- guard (cumsumstate jj <=? eM) ;;
  match indA jj i with
  | [] => Some st
  | ind =>
      let gradA := jacobian (fun j => transition (base jj + i) (base jj + j)) in
      vals <- rows (matvec (nS jj) gradA (gradArow jj i)) ind ;;
      put st vals
  end.

Definition passA (st : list D * nat) : option (list D * nat) :=
  if (0 <? accu ANZ_mem)%Z then
    foldM (fun st jj => foldM (fun st i => rowA jj i st) (seq 0 (nS jj)) st)
          (seq 0 J) st
  else Some st.

(** *** Emission rows, lines 87-130 *)

Definition nSym (r : nat) : nat := nth r (nSymbols inp) 0.

Definition indB (r i : nat) : list nat :=
  find (map (fun v => BNZ i v r) (seq 0 (eP - 1))).

Definition termB0 (r i k : nat) : D :=
  ddiv (dmul (dmul (initk cols i k) (emis_other r i k 0)) (beta cols i 0 k))
       (scales cols 0 k).

Definition termB (r i t k : nat) : D :=
  ddiv (dmul (dmul (dsum eM (fun s => dmul (alpha cols s t k) (transition s i)))
                   (emis_other r i k (t + 1)))
             (beta cols i (t + 1) k))
       (scales cols (t + 1) k).

Definition gradBrow (r i : nat) : list D :=
  loop (nSym r) (fun v j =>
    loop oK (fun v k =>
      let v0 := if obs k 0 r =? j then add_at v j (termB0 r i k) else v in
      loop (oN - 1) (fun v t =>
        if obs k (t + 1) r =? j then add_at v j (termB r i t k) else v) v0) v)
    (repeat d0 (nSym r)).

(** One iteration of the loop over [i] (lines 93-127).  The guards are the
    checks of [BNZ.slice(r)] and of
    [emission.slice(r).row(i).subvec(0, nSymbols[r] - 1)]. *)
Definition rowB (r i : nat) (st : list D * nat) : option (list D * nat) :=
  _ <- guard (r <? eR) ;;
  match indB r i with
  | [] => Some st
  | ind =>
      _ <- guard ((1 <=? nSym r) && (nSym r <=? eP)) ;;
      let gradB := jacobian (fun v => emission i v r) in
      vals <- rows (matvec (nSym r) gradB (gradBrow r i)) ind ;;
      put st vals
  end.

Definition passB (st : list D * nat) : option (list D * nat) :=
  if (0 <? accu BNZ_mem)%Z then
    foldM (fun st r => foldM (fun st i => rowB r i st) (seq 0 eM) st)
          (seq 0 oR) st
  else Some st.

(** *** Initial probabilities, lines 131-154 *)

Definition indI (i : nat) : list nat :=
  find (map (fun j => INZ (base i + j)) (seq 0 (nS i))).

Definition termI (i j k : nat) : D :=
  dmul (ddiv (dmul (emis_all (base i + j) k 0) (beta cols (base i + j) 0 k))
             (scales cols 0 k))
       (lweights i k).

Definition gradIrow (i : nat) : list D :=
  loop (nS i) (fun v j =>
    loop oK (fun v k => add_at v j (termI i j k)) v)
    (repeat d0 (nS i)).

(** One iteration of the loop over the blocks (lines 133-152).  The guard
    is the check of [INZ.subvec(first, last)]: the block is not empty and
    lies inside the [m] states. *)
Definition rowI (i : nat) (st : list D * nat) : option (list D * nat) :=
  _ <- guard ((1 <=? nS i) && (cumsumstate i <=? eM)) ;;
  match indI i with
  | [] => Some st
  | ind =>
      let gradI := jacobian (fun j => init (base i + j)) in
      vals <- rows (matvec (nS i) gradI (gradIrow i)) ind ;;
      put st vals
  end.

Definition passI (st : list D * nat) : option (list D * nat) :=
  if (0 <? accu INZ_mem)%Z then foldM (fun st i => rowI i st) (seq 0 J) st
  else Some st.

(** *** Mixture coefficients, lines 156-172 *)

(** [tmp * beta(j,0,k) / scales(0,k) * initk(j,k)]. *)
Definition termX (j k : nat) : D :=
  dmul (ddiv (dmul (emis_all j k 0) (beta cols j 0 k)) (scales cols 0 k))
       (initk cols j k).

(** The right-hand side of [+=] / [-=] of lines 164-168 applied to the
    current contents [old] of the q entries of block [jj]. *)
Definition updX (jj k j : nat) (old : list D) : list D :=
  if (base jj <=? j) && (j <? cumsumstate jj) then
    map (fun c => dadd (nth c old d0)
                    (dmul (dmul (termX j k) (X k c)) (dsub d1 (lweights jj k))))
        (seq 0 q)
  else
    map (fun c => dsub (nth c old d0)
                    (dmul (dmul (termX j k) (X k c)) (lweights jj k)))
        (seq 0 q).

(** [grad.subvec(off, off + q - 1) += / -= ...] for one state [j] of one
    subject [k], with [off = countgrad + q * (jj - 1)]. *)
Definition stepX (jj k j : nat) (st : list D * nat) : option (list D * nat) :=
  let '(grad, cg) := st in
  let off := cg + q * (jj - 1) in
  _ <- guard ((1 <=? q) && (off + q <=? length grad)) ;;
  Some (write grad off (updX jj k j (firstn q (skipn off grad))), cg).

Definition passX (st : list D * nat) : option (list D * nat) :=
  foldM (fun st jj =>
    foldM (fun st k =>
      foldM (fun st j => stepX jj k j st) (seq 0 eM) st) (seq 0 oK) st)
    (seq 1 (J - 1)) st.

(** *** The four segments of the gradient, before the final negation *)

Definition valsA (jj i : nat) : list D :=
  map (fun a => nth a (matvec (nS jj)
                         (jacobian (fun j => transition (base jj + i) (base jj + j)))
                         (gradArow jj i)) d0)
      (indA jj i).

Definition segA : list D :=
  if (0 <? accu ANZ_mem)%Z then
    concat (map (fun jj => concat (map (valsA jj) (seq 0 (nS jj)))) (seq 0 J))
  else [].

Definition valsB (r i : nat) : list D :=
  map (fun a => nth a (matvec (nSym r) (jacobian (fun v => emission i v r))
                         (gradBrow r i)) d0)
      (indB r i).

Definition segB : list D :=
  if (0 <? accu BNZ_mem)%Z then
    concat (map (fun r => concat (map (valsB r) (seq 0 eM))) (seq 0 oR))
  else [].

Definition valsI (i : nat) : list D :=
  map (fun a => nth a (matvec (nS i) (jacobian (fun j => init (base i + j)))
                         (gradIrow i)) d0)
      (indI i).

Definition segI : list D :=
  if (0 <? accu INZ_mem)%Z then concat (map valsI (seq 0 J)) else [].

Definition rowX (jj : nat) : list D :=
  loop oK (fun v k => loop eM (fun v j => updX jj k j v) v) (repeat d0 q).

Definition segX : list D := concat (map rowX (seq 1 (J - 1))).

(** *** The segments as the specification words them

    The definitions below follow the specification, not the source: raw
    sums of sufficient statistics, multiplied by the simplex Jacobian
    [diag(p) - p p^T] and restricted to the free entries.  They are
    compared with the segments above under the laws of exact arithmetic. *)

Definition simplex_jacobian (p : nat -> D) (a b : nat) : D :=
  dsub (if a =? b then p a else d0) (dmul (p a) (p b)).

(** [J_p * raw], restricted to the positions [ind]. *)
Definition spec_row (n : nat) (p raw : nat -> D) (ind : list nat) : list D :=
  map (fun a => dsum n (fun b => dmul (simplex_jacobian p a b) (raw b))) ind.

(** The product over all channels of the emission probabilities of state
    [s] for the symbols subject [k] shows at time [t]. *)
Definition spec_emis (s k t : nat) : D :=
  dprod oR (fun r => emission s (obs k t r) r).

(** The same product over the channels other than [r]. *)
Definition spec_emis_other (r s k t : nat) : D :=
  dprod oR (fun r2 => if r2 =? r then d1 else emission s (obs k t r2) r2).

Definition spec_rawA (jj i j : nat) : D :=
  dsum oK (fun k => dsum (oN - 1) (fun t =>
    ddiv (dmul (dmul (alpha cols (base jj + i) t k) (spec_emis (base jj + j) k (t + 1)))
               (beta cols (base jj + j) (t + 1) k))
         (scales cols (t + 1) k))).

Definition spec_segA (jj i : nat) : list D :=
  spec_row (nS jj) (fun j => transition (base jj + i) (base jj + j))
           (spec_rawA jj i) (indA jj i).

Definition spec_rawB (r i v : nat) : D :=
  dsum oK (fun k =>
    dadd (if obs k 0 r =? v
          then ddiv (dmul (dmul (initk cols i k) (spec_emis_other r i k 0))
                          (beta cols i 0 k))
                    (scales cols 0 k)
          else d0)
         (dsum (oN - 1) (fun t =>
            if obs k (t + 1) r =? v
            then ddiv (dmul (dmul (dsum eM (fun s =>
                                     dmul (alpha cols s t k) (transition s i)))
                                  (spec_emis_other r i k (t + 1)))
                            (beta cols i (t + 1) k))
                      (scales cols (t + 1) k)
            else d0))).

Definition spec_segB (r i : nat) : list D :=
  spec_row (nSym r) (fun v => emission i v r) (spec_rawB r i) (indB r i).

Definition spec_rawI (i j : nat) : D :=
  dsum oK (fun k =>
    dmul (ddiv (dmul (spec_emis (base i + j) k 0) (beta cols (base i + j) 0 k))
               (scales cols 0 k))
         (lweights i k)).

Definition spec_segI (i : nat) : list D :=
  spec_row (nS i) (fun j => init (base i + j)) (spec_rawI i) (indI i).

(** State [s] belongs to block [jj]. *)
Definition in_block (jj s : nat) : bool :=
  (base jj <=? s) && (s <? cumsumstate jj).

Definition spec_segX (jj : nat) : list D :=
  map (fun c =>
    dsum oK (fun k => dsum eM (fun s =>
      dmul (dmul (dmul (ddiv (dmul (spec_emis s k 0) (beta cols s 0 k))
                             (scales cols 0 k))
                       (initk cols s k))
                 (X k c))
           (if in_block jj s then dsub d1 (lweights jj k)
            else dopp (lweights jj k)))))
    (seq 0 q).

End Passes.

(** ** The entry point *)

(** The guards are the checks of the dimension [eDims[1] - 1] of [BNZ]
    (line 20), of the length of [grad] (line 26) and of [coef.col(0)]
    (line 28). *)
Definition objectivex : option Output :=
  _ <- guard (1 <=? eP) ;;
  _ <- guard ((0 <=? grad_len)%Z) ;;
  let grad := repeat d0 (Z.to_nat grad_len) in
  _ <- guard (1 <=? J) ;;
  if negb lweights_finite then
    Some {| objective := dbl_max;
            gradient := map (fun _ => dopp dbl_max) grad |}
  else
    cols <- initk_cols ;;
    st <- passA cols (grad, 0) ;;
    st <- passB cols st ;;
    st <- passI cols st ;;
    st <- passX cols st ;;
    Some {| objective := neg_loglik cols;
            gradient := map dopp (fst st) |}.
(** ** Offsets of the rows in the gradient *)

(** The number of entries written before row [i] of block [jj] of the
    transition pass, before row [i] of channel [r] of the emission pass,
    before block [i] of the initial pass, and before the [q] entries of
    block [jj] of the mixture-coefficient pass. *)
Definition offA (jj i : nat) : nat :=
  nsum jj (fun jj' => nsum (nS jj') (fun i' => length (indA jj' i')))
  + nsum i (fun i' => length (indA jj i')).

Definition offB (r i : nat) : nat :=
  nnz ANZ_mem
  + nsum r (fun r' => nsum eM (fun i' => length (indB r' i')))
  + nsum i (fun i' => length (indB r i')).

Definition offI (i : nat) : nat :=
  nnz ANZ_mem + nnz BNZ_mem + nsum i (fun i' => length (indI i')).

Definition offX (jj : nat) : nat :=
  nnz ANZ_mem + nnz BNZ_mem + nnz INZ_mem + q * (jj - 1).

(** ** Arguments that differ only in column 0 of the coefficients *)

(** [coefs] is a q x J matrix stored by columns: its first [q] entries are
    column 0. *)
Definition agree_off_column0 (inp2 : Input) : Prop :=
  transitionMatrix inp = transitionMatrix inp2 /\
  emissionArray inp = emissionArray inp2 /\
  eDims inp = eDims inp2 /\
  initialProbs inp = initialProbs inp2 /\
  obsArray inp = obsArray inp2 /\
  oDims inp = oDims inp2 /\
  transNZ inp = transNZ inp2 /\
  emissNZ inp = emissNZ inp2 /\
  initNZ inp = initNZ inp2 /\
  nSymbols inp = nSymbols inp2 /\
  coefs_nrow inp = coefs_nrow inp2 /\
  X_ inp = X_ inp2 /\
  numberOfStates inp = numberOfStates inp2 /\
  skipn (coefs_nrow inp) (coefs inp) = skipn (coefs_nrow inp2) (coefs inp2).

(** ** Well-formed arguments *)

(** The masks are indicators, the blocks partition the states, the
    transition mask vanishes between different blocks, the emission mask
    vanishes beyond the alphabet of its channel, and the observations have
    as many channels as the emission array. *)
Definition masks_wf : bool :=
  mask01 ANZ_mem && mask01 BNZ_mem && mask01 INZ_mem
  && (list_sum (numberOfStates inp) =? eM) && (oR =? eR)
  && forallb (fun jj => forallb (fun jj' => (jj =? jj') ||
       forallb (fun i => forallb (fun j =>
         (ANZ (base jj + i) (base jj' + j) =? 0)%Z) (seq 0 (nS jj'))) (seq 0 (nS jj)))
       (seq 0 J)) (seq 0 J)
  && forallb (fun r => forallb (fun i => forallb (fun v =>
       (v <? nSym r) || (BNZ i v r =? 0)%Z) (seq 0 (eP - 1))) (seq 0 eM)) (seq 0 eR).

(** The flat arguments have the sizes their dimensions announce, there is
    a time step, and every observed symbol is a column of the emission
    array. *)
Definition arrays_wf : bool :=
  (length (transitionMatrix inp) =? eM * eM)
  && (length (emissionArray inp) =? eM * eP * eR)
  && (length (initialProbs inp) =? eM)
  && (length (obsArray inp) =? oK * oN * oR)
  && (length (transNZ inp) =? eM * eM)
  && (length (emissNZ inp) =? eM * (eP - 1) * eR)
  && (length (initNZ inp) =? eM)
  && (length (nSymbols inp) =? oR)
  && (length (coefs inp) =? q * J)
  && (length (X_ inp) =? oK * q)
  && (1 <=? oN)
  && forallb (fun v => v <? eP) (obsArray inp).

(** There is a block, a covariate and a column of symbols, no block is
    empty, and every alphabet is non-empty and fits the emission array. *)
Definition shapes_wf : bool :=
  (1 <=? J) && (1 <=? q) && (1 <=? eP)
  && forallb (fun jj => 1 <=? nS jj) (seq 0 J)
  && forallb (fun r => (1 <=? nSym r) && (nSym r <=? eP)) (seq 0 oR)
  && arrays_wf.

Definition well_formed : bool := masks_wf && shapes_wf.

End Run.

End Model.

(** ** A model of the two recursions *)

Section Recursions.

Context {D : Type} {AD : Arith D}.

Variables (tm em : list D) (ed : nat * nat * nat).
Variables (ob : list nat) (od : nat * nat * nat).

Definition rM : nat := fst (fst ed).
Definition rP : nat := snd (fst ed).
Definition rK : nat := fst (fst od).
Definition rN : nat := snd (fst od).
Definition rR : nat := snd od.

Definition r_trans (i j : nat) : D := nth (i + j * rM) tm d0.
Definition r_emis (s k t : nat) : D :=
  dprod rR (fun r =>
    nth (s + nth (k + t * rK + r * (rK * rN)) ob 0 * rM + r * (rM * rP)) em d0).

(** A vector divided by its sum, and the sum. *)
Definition normalise (u : list D) : list D * D :=
  let c := fold_left dadd u d0 in (map (fun x => ddiv x c) u, c).

Fixpoint forward_steps (k : nat) (ts : list nat) (prev : list D) : list (list D * D) :=
  match ts with
  | [] => []
  | t :: ts' =>
      let a := normalise (map (fun s =>
                 dmul (dsum rM (fun j => dmul (nth j prev d0) (r_trans j s)))
                      (r_emis s k t)) (seq 0 rM)) in
      a :: forward_steps k ts' (fst a)
  end.

Definition forward_subject (ik : list D) (k : nat) : list (list D * D) :=
  match rN with
  | 0 => []
  | S n =>
      let a := normalise (map (fun s => dmul (nth (s + k * rM) ik d0) (r_emis s k 0))
                              (seq 0 rM)) in
      a :: forward_steps k (seq 1 n) (fst a)
  end.

(** Modelled from the spec: the forward pass of section 4.3, whose source
    is not part of the file.  For each subject and time the forward values
    are scaled to sum to one and the removed scale is recorded; the
    emission probability of a multichannel symbol is the product over the
    channels.  The result is the memory of [alpha] (m x n x k) and of
    [scales] (n x k). *)
Definition forward_model (ik : list D) : list D * list D :=
  let per := map (forward_subject ik) (seq 0 rK) in
  (concat (map (fun l => concat (map fst l)) per),
   concat (map (fun l => map snd l) per)).

Definition backward_subject (sc : list D) (k : nat) : list (list D) :=
  fold_right (fun t acc =>
    match acc with
    | [] => [repeat d1 rM]
    | next :: _ =>
        map (fun s => dsum rM (fun j =>
               ddiv (dmul (dmul (r_trans s j) (r_emis j k (t + 1))) (nth j next d0))
                    (nth (t + 1 + k * rN) sc d0))) (seq 0 rM) :: acc
    end) [] (seq 0 rN).

(** Modelled from the spec: the backward pass of section 4.3, scaled by
    the scale factors of the forward pass.  The result is the memory of
    [beta] (m x n x k). *)
Definition backward_model (sc : list D) : list D :=
  concat (map (fun k => concat (backward_subject sc k)) (seq 0 rK)).

End Recursions.

(** ** Exact rational arithmetic as an instance *)

Module QcInst.

Local Open Scope Qc_scope.

(** The largest finite binary64 number, (2^53 - 1) * 2^971. *)
Definition DBL_MAX : Qc := Q2Qc (inject_Z ((2 ^ 53 - 1) * 2 ^ 971)).

(** Stand-ins for [exp] and [log] on the rationals: a positive function
    with value 1 at 0, and a function with value 0 at 1. *)
Definition qexp (x : Qc) : Qc := 1 + x * x.
Definition qlog (x : Qc) : Qc := x - 1.

Definition qfinite (x : Qc) : bool :=
  match (- DBL_MAX ?= x), (x ?= DBL_MAX) with
  | Gt, _ | _, Gt => false
  | _, _ => true
  end.

#[export] Instance QcArith : Arith Qc := {|
  d0 := 0; d1 := 1;
  dadd := Qcplus; dsub := Qcminus; dmul := Qcmult; ddiv := Qcdiv;
  dopp := Qcopp; dexp := qexp; dlog := qlog;
  dbl_max := DBL_MAX; is_finite := qfinite
|}.

Definition fwd_q (tm em : list Qc) (ed : nat * nat * nat) (ik : list Qc)
    (ob : list nat) (od : nat * nat * nat) : list Qc * list Qc :=
  forward_model tm em ed ob od ik.

Definition bwd_q (tm em : list Qc) (ed : nat * nat * nat)
    (ob : list nat) (od : nat * nat * nat) (sc : list Qc) : list Qc :=
  backward_model tm em ed ob od sc.

Definition qq (a : Z) (b : positive) : Qc := Q2Qc (a # b).

(** A mixture of two blocks, of two states and of one state, observed on
    one channel with two symbols (the third column of the emission array
    is the column of missing observations), for two subjects and three
    time steps, with one covariate.  Column 0 of the coefficients is not
    zero. *)
Definition example : Input (D := Qc) := {|
  transitionMatrix := [qq 1 2; qq 1 4; 0;  qq 1 2; qq 3 4; 0;  0; 0; 1];
  emissionArray := [qq 1 2; qq 1 4; qq 3 4;  qq 1 2; qq 3 4; qq 1 4;  1; 1; 1];
  eDims := (3, 3, 1)%nat;
  initialProbs := [qq 1 2; qq 1 2; 1];
  obsArray := [0; 1;  1; 1;  0; 0]%nat;
  oDims := (2, 3, 1)%nat;
  transNZ := [0; 1; 0;  1; 0; 0;  0; 0; 0]%Z;
  emissNZ := [1; 0; 1;  0; 1; 0]%Z;
  initNZ := [1; 0; 0]%Z;
  nSymbols := [2]%nat;
  coefs_nrow := 1%nat;
  coefs := [qq 5 1; qq 1 2];
  X_ := [1; qq 2 1];
  numberOfStates := [2; 1]%nat
|}.

(** The same arguments with a coefficient whose exponential overflows. *)
Definition example_overflow : Input (D := Qc) := {|
  transitionMatrix := transitionMatrix example;
  emissionArray := emissionArray example;
  eDims := eDims example;
  initialProbs := initialProbs example;
  obsArray := obsArray example;
  oDims := oDims example;
  transNZ := transNZ example;
  emissNZ := emissNZ example;
  initNZ := initNZ example;
  nSymbols := nSymbols example;
  coefs_nrow := coefs_nrow example;
  coefs := [0; Q2Qc (inject_Z (2 ^ 600))];
  X_ := X_ example;
  numberOfStates := numberOfStates example
|}.

(** The same arguments with another column 0 of the coefficients. *)
Definition example_column0 : Input (D := Qc) := {|
  transitionMatrix := transitionMatrix example;
  emissionArray := emissionArray example;
  eDims := eDims example;
  initialProbs := initialProbs example;
  obsArray := obsArray example;
  oDims := oDims example;
  transNZ := transNZ example;
  emissNZ := emissNZ example;
  initNZ := initNZ example;
  nSymbols := nSymbols example;
  coefs_nrow := coefs_nrow example;
  coefs := [qq (-7) 3; qq 1 2];
  X_ := X_ example;
  numberOfStates := numberOfStates example
|}.

Definition example_cols : list (list Qc) :=
  match initk_cols example with Some c => c | None => [] end.

Definition example_res : Output (D := Qc) :=
  match objectivex fwd_q bwd_q example with
  | Some r => r
  | None => {| objective := 0; gradient := [] |}
  end.

End QcInst.

(** ** Further arguments for the examples *)

Module QcMore.

Import QcInst.

(** The arguments of [example] without any subject. *)
Definition example_empty : Input (D := Qc) := {|
  transitionMatrix := transitionMatrix example;
  emissionArray := emissionArray example;
  eDims := eDims example;
  initialProbs := initialProbs example;
  obsArray := [];
  oDims := (0, 3, 1);
  transNZ := transNZ example;
  emissNZ := emissNZ example;
  initNZ := initNZ example;
  nSymbols := nSymbols example;
  coefs_nrow := coefs_nrow example;
  coefs := coefs example;
  X_ := [];
  numberOfStates := numberOfStates example
|}.

Definition example_empty_res : Output (D := Qc) :=
  match objectivex fwd_q bwd_q example_empty with
  | Some r => r
  | None => {| objective := 1%Qc; gradient := [1%Qc] |}
  end.

(** The arguments of [example] with the three states in a single block. *)
Definition example_single : Input (D := Qc) := {|
  transitionMatrix := transitionMatrix example;
  emissionArray := emissionArray example;
  eDims := eDims example;
  initialProbs := initialProbs example;
  obsArray := obsArray example;
  oDims := oDims example;
  transNZ := transNZ example;
  emissNZ := emissNZ example;
  initNZ := initNZ example;
  nSymbols := nSymbols example;
  coefs_nrow := coefs_nrow example;
  coefs := [qq 5 1];
  X_ := X_ example;
  numberOfStates := [3]
|}.

Definition example_single_cols : list (list Qc) :=
  match initk_cols example_single with Some c => c | None => [] end.

(** The arguments of [example] with a covariate that is zero for both
    subjects. *)
Definition example_zero_covariate : Input (D := Qc) := {|
  transitionMatrix := transitionMatrix example;
  emissionArray := emissionArray example;
  eDims := eDims example;
  initialProbs := initialProbs example;
  obsArray := obsArray example;
  oDims := oDims example;
  transNZ := transNZ example;
  emissNZ := emissNZ example;
  initNZ := initNZ example;
  nSymbols := nSymbols example;
  coefs_nrow := coefs_nrow example;
  coefs := coefs example;
  X_ := [0%Qc; 0%Qc];
  numberOfStates := numberOfStates example
|}.

Definition example_zero_covariate_cols : list (list Qc) :=
  match initk_cols example_zero_covariate with Some c => c | None => [] end.

Definition example_zero_covariate_res : Output (D := Qc) :=
  match objectivex fwd_q bwd_q example_zero_covariate with
  | Some r => r
  | None => {| objective := 1%Qc; gradient := [] |}
  end.

(** The buffer and [countgrad] after the transition pass of [example]. *)
Definition example_after_passA : list Qc * nat :=
  match passA fwd_q bwd_q example example_cols (repeat 0%Qc 7, 0) with
  | Some st => st
  | None => ([], 0)
  end.

(** The buffer and [countgrad] after the mixture-coefficient pass of
    [example] on a buffer of sevens. *)
Definition example_after_passX : list Qc * nat :=
  match passX fwd_q bwd_q example example_cols (repeat (qq 7 1) 8, 6) with
  | Some st => st
  | None => ([], 0)
  end.

(** The arguments of [example] with a transition mask that holds a 2: the
    mask is no indicator. *)
Definition example_mask_two : Input (D := Qc) := {|
  transitionMatrix := transitionMatrix example;
  emissionArray := emissionArray example;
  eDims := eDims example;
  initialProbs := initialProbs example;
  obsArray := obsArray example;
  oDims := oDims example;
  transNZ := [0; 2; 0;  1; 0; 0;  0; 0; 0]%Z;
  emissNZ := emissNZ example;
  initNZ := initNZ example;
  nSymbols := nSymbols example;
  coefs_nrow := coefs_nrow example;
  coefs := coefs example;
  X_ := X_ example;
  numberOfStates := numberOfStates example
|}.

Definition example_mask_two_res : Output (D := Qc) :=
  match objectivex fwd_q bwd_q example_mask_two with
  | Some r => r
  | None => {| objective := 0%Qc; gradient := [] |}
  end.

(** The arguments of [example] with an indicator transition mask that
    marks the transition from state 0 of block 0 to the state of block 1. *)
Definition example_cross_block : Input (D := Qc) := {|
  transitionMatrix := transitionMatrix example;
  emissionArray := emissionArray example;
  eDims := eDims example;
  initialProbs := initialProbs example;
  obsArray := obsArray example;
  oDims := oDims example;
  transNZ := [0; 1; 0;  1; 0; 0;  1; 0; 0]%Z;
  emissNZ := emissNZ example;
  initNZ := initNZ example;
  nSymbols := nSymbols example;
  coefs_nrow := coefs_nrow example;
  coefs := coefs example;
  X_ := X_ example;
  numberOfStates := numberOfStates example
|}.

Definition example_cross_block_cols : list (list Qc) :=
  match initk_cols example_cross_block with Some c => c | None => [] end.

Definition example_cross_block_res : Output (D := Qc) :=
  match objectivex fwd_q bwd_q example_cross_block with
  | Some r => r
  | None => {| objective := 0%Qc; gradient := [] |}
  end.

End QcMore.

(** ** Binary64 *)

(** The arithmetic of the source: IEEE 754 binary64 with rounding to
    nearest, through the primitive floating-point numbers.  Addition,
    subtraction, multiplication, division and negation are the ones of the
    processor.  [exp] and [log] belong to the C library; here they are
    computed in binary64 by argument reduction and a truncated series,
    which agrees with the library functions to about twelve significant
    digits. *)
Module Binary64.

Import PrimFloat.
Local Open Scope float_scope.

(** [exp x] for [|x| <= 1]: the Taylor polynomial of degree 20. *)
Definition exp_series (x : float) : float :=
  fold_right (fun n acc => 1 + x / n * acc) 1
    [1; 2; 3; 4; 5; 6; 7; 8; 9; 10; 11; 12; 13; 14; 15; 16; 17; 18; 19; 20].

(** [exp x = (exp (x / 2))^2] until [|x| <= 1]; every finite binary64
    number is below [2^1024], so 1100 halvings are enough. *)
Fixpoint exp_halving (fuel : nat) (x : float) : float :=
  match fuel with
  | O => exp_series x
  | S fuel' =>
      if abs x <=? 1 then exp_series x
      else let y := exp_halving fuel' (x / 2) in y * y
  end.

Definition fexp (x : float) : float :=
  if is_nan x then x
  else if is_infinity x then (if x <? 0 then 0 else x)
  else exp_halving 1100 x.

(** [log m] for [m] near 1, by the series of [2 * atanh ((m-1)/(m+1))]. *)
Definition log_series (m : float) : float :=
  let s := (m - 1) / (m + 1) in
  2 * s * fold_right (fun n acc => 1 / n + s * s * acc) 0
            [1; 3; 5; 7; 9; 11; 13; 15; 17; 19; 21; 23; 25; 27; 29; 31; 33; 35; 37; 39].

Definition ln2 : float := 0x1.62e42fefa39efp-1.

(** [log (m * 2^e) = e * log 2 + log m]; [frshiftexp] returns [m] in
    [1/2, 1) and the exponent shifted by 2101, and [m] is moved to
    [sqrt(1/2), sqrt 2) before the series. *)
Definition flog (x : float) : float :=
  if is_nan x then x
  else if x <? 0 then nan
  else if x =? 0 then neg_infinity
  else if is_infinity x then x
  else let '(m, se) := frshiftexp x in
       let e := of_uint63 se - 2101 in
       if m <? 0x1.6a09e667f3bcdp-1
       then (e - 1) * ln2 + log_series (2 * m)
       else e * ln2 + log_series m.

(** The largest finite binary64 number. *)
Definition DBL_MAX : float := 0x1.fffffffffffffp+1023.

#[export] Instance FloatArith : Arith float :=
  @Build_Arith float 0 1 add sub mul div opp fexp flog DBL_MAX PrimFloat.is_finite.


(** [exp] and [log] at a few arguments. *)
Definition exp_log_samples : list float :=
  [fexp 0; fexp 1; fexp (-1); fexp 709.5; fexp 710; fexp (-800);
   flog 1; flog 2; flog 10; flog 0.125].

Definition exp_log_expected : list float :=
  [1; 0x1.5bf0a8b145769p+1; 0x1.78b56362cef38p-2; 0x1.81e9b4b52d1p+1023; infinity; 0;
   0; 0x1.62e42fefa39efp-1; 0x1.26bb1bbb55515p+1; -0x1.0a2b23f3bab73p+1].

End Binary64.

(** * Properties *)

(** ** Counting *)

Lemma nsum_ext (n : nat) (f g : nat -> nat) :
  (forall i, i < n -> f i = g i) -> nsum n f = nsum n g.
Proof.
  intros H. unfold nsum. f_equal. apply map_ext_in.
  intros i Hi. apply in_seq in Hi. apply H. lia.
Qed.

Lemma nsum_S_r (n : nat) (f : nat -> nat) : nsum (S n) f = nsum n f + f n.
Proof.
  unfold nsum. rewrite seq_S, map_app, list_sum_app. simpl. lia.
Qed.

Lemma nsum_zero (n : nat) (f : nat -> nat) :
  (forall i, i < n -> f i = 0) -> nsum n f = 0.
Proof.
  induction n as [|n IH]; intros H; [reflexivity|].
  rewrite nsum_S_r, IH, H; auto.
Qed.

Lemma nsum_add (n : nat) (f g : nat -> nat) :
  nsum n (fun i => f i + g i) = nsum n f + nsum n g.
Proof.
  induction n as [|n IH]; [reflexivity|]. rewrite !nsum_S_r, IH. lia.
Qed.

Lemma nsum_swap (a b : nat) (f : nat -> nat -> nat) :
  nsum a (fun i => nsum b (fun j => f i j)) = nsum b (fun j => nsum a (fun i => f i j)).
Proof.
  induction a as [|a IH].
  - symmetry. apply nsum_zero. reflexivity.
  - rewrite nsum_S_r, IH. rewrite <- nsum_add.
    apply nsum_ext. intros j _. rewrite nsum_S_r. reflexivity.
Qed.

Lemma nsum_single (n k : nat) (f : nat -> nat) :
  k < n -> (forall i, i < n -> i <> k -> f i = 0) -> nsum n f = f k.
Proof.
  induction n as [|n IH]; intros Hk H; [lia|].
  rewrite nsum_S_r. destruct (Nat.eq_dec k n) as [->|Hne].
  - rewrite nsum_zero; [reflexivity|]. intros i Hi. apply H; lia.
  - rewrite IH, (H n) by (auto; lia). lia.
Qed.

Lemma list_sum_seq_shift (off n : nat) (f : nat -> nat) :
  list_sum (map f (seq off n)) = nsum n (fun i => f (off + i)).
Proof.
  unfold nsum. f_equal.
  rewrite <- (Nat.add_0_r off) at 1. generalize 0 as s.
  induction n as [|n IH]; intros s; simpl; [reflexivity|].
  f_equal. rewrite <- Nat.add_succ_r. apply IH.
Qed.

(** A sum over a flat index is a sum over columns of sums over rows. *)
Lemma nsum_mul (a b : nat) (f : nat -> nat) :
  nsum (a * b) f = nsum b (fun j => nsum a (fun i => f (i + j * a))).
Proof.
  induction b as [|b IH].
  - rewrite Nat.mul_0_r. reflexivity.
  - rewrite nsum_S_r, <- IH, Nat.mul_succ_r.
    unfold nsum at 1. rewrite seq_app, map_app, list_sum_app. simpl.
    f_equal. rewrite list_sum_seq_shift. apply nsum_ext.
    intros i _. f_equal. lia.
Qed.

(** A sum over all states is a sum over blocks of sums over their states. *)
Lemma nsum_blocks (ns : list nat) (f : nat -> nat) :
  nsum (list_sum ns) f =
  nsum (length ns) (fun jj => nsum (nth jj ns 0) (fun i => f (prefix ns jj + i))).
Proof.
  revert f. induction ns as [|n ns IH]; intros f; [reflexivity|].
  simpl length. simpl list_sum.
  assert (E : nsum (n + list_sum ns) f =
              nsum n f + nsum (list_sum ns) (fun i => f (n + i))).
  { unfold nsum at 1. rewrite seq_app, map_app, list_sum_app. f_equal.
    simpl. apply list_sum_seq_shift. }
  rewrite E, (IH (fun i => f (n + i))). clear E IH.
  unfold nsum at 4. simpl. f_equal.
  rewrite <- seq_shift, map_map. unfold nsum at 1. f_equal.
  apply map_ext. intros jj. simpl. apply nsum_ext. intros i _.
  f_equal. unfold prefix. simpl. lia.
Qed.

Lemma length_find_from (off : nat) (l : list Z) :
  length (find_from off l) = list_sum (map nzb l).
Proof.
  revert off. induction l as [|x l IH]; intros off; simpl; [reflexivity|].
  unfold nzb at 1. destruct (x =? 0)%Z; simpl; rewrite IH; reflexivity.
Qed.

Lemma nnz_map_seq (n : nat) (f : nat -> Z) :
  length (find (map f (seq 0 n))) = nsum n (fun j => nzb (f j)).
Proof.
  unfold find, nsum. rewrite length_find_from, map_map. reflexivity.
Qed.

Lemma nnz_nsum (n : nat) (l : list Z) :
  length l <= n -> nnz l = nsum n (fun x => nzb (nth x l 0%Z)).
Proof.
  unfold nnz, find. rewrite length_find_from.
  revert n. induction l as [|x l IH]; intros n H; simpl.
  - symmetry. apply nsum_zero. intros [|i] _; reflexivity.
  - destruct n as [|n]; [simpl in H; lia|].
    unfold nsum. simpl. f_equal.
    rewrite <- seq_shift, map_map. apply IH. simpl in H. lia.
Qed.

Lemma accu_mask01 (l : list Z) : mask01 l = true -> accu l = Z.of_nat (nnz l).
Proof.
  unfold accu, nnz, find. rewrite length_find_from.
  assert (H : forall l acc, mask01 l = true ->
            fold_left Z.add l acc = (acc + Z.of_nat (list_sum (map nzb l)))%Z).
  { clear l. induction l as [|x l IH]; intros acc Hm; simpl; [lia|].
    simpl in Hm. apply andb_prop in Hm. destruct Hm as [Hx Hm].
    rewrite IH by exact Hm. unfold nzb at 2.
    apply orb_prop in Hx. destruct Hx as [Hx|Hx]; apply Z.eqb_eq in Hx; subst x;
      simpl; lia. }
  intros Hm. rewrite H by exact Hm. lia.
Qed.

Lemma length_concat_map {A B} (f : A -> list B) (l : list A) :
  length (concat (map f l)) = list_sum (map (fun a => length (f a)) l).
Proof.
  induction l as [|a l IH]; simpl; [reflexivity|].
  rewrite length_app, IH. reflexivity.
Qed.

Lemma nth_cumsum_from (ns : list nat) :
  forall acc jj, jj < length ns ->
    nth jj (cumsum_from acc ns) 0 = acc + prefix ns jj + nth jj ns 0.
Proof.
  induction ns as [|n ns IH]; intros acc jj Hj; simpl in Hj; [lia|].
  destruct jj as [|jj]; simpl.
  - unfold prefix. simpl. lia.
  - rewrite IH by lia. unfold prefix. simpl. lia.
Qed.

Section Theory.

Context {D : Type} {AD : Arith D}.

(** ** The option monad *)

Lemma bind_Some {A B} (m : option A) (f : A -> option B) (b : B) :
  bind m f = Some b -> exists a, m = Some a /\ f a = Some b.
Proof. destruct m as [a|]; simpl; [eauto | discriminate]. Qed.

Lemma guard_Some (b : bool) (u : unit) : guard b = Some u -> b = true.
Proof. destruct b; [reflexivity | discriminate]. Qed.

Lemma guard_true (b : bool) : b = true -> guard b = Some tt.
Proof. intros ->; reflexivity. Qed.

Ltac inv_bind H :=
  let x := fresh "x" in
  let Hx := fresh "Hx" in
  apply bind_Some in H; destruct H as (x & Hx & H).

(** ** Writing into the gradient buffer *)

Lemma write_nil (g : list D) (cg : nat) : write g cg [] = g.
Proof. unfold write; simpl. rewrite Nat.add_0_r. apply firstn_skipn. Qed.

Lemma length_write (g : list D) (cg : nat) (s : list D) :
  cg + length s <= length g -> length (write g cg s) = length g.
Proof.
  intros H. unfold write.
  rewrite !length_app, length_firstn, length_skipn. lia.
Qed.

Lemma write_write (g : list D) (cg : nat) (s1 s2 : list D) :
  cg + length s1 <= length g ->
  write (write g cg s1) (cg + length s1) s2 = write g cg (s1 ++ s2).
Proof.
  intros H. unfold write.
  assert (Hl : length (firstn cg g ++ s1) = cg + length s1)
    by (rewrite length_app, length_firstn; lia).
  rewrite (app_assoc (firstn cg g) s1).
  set (pre := firstn cg g ++ s1) in *.
  rewrite firstn_app, Hl, Nat.sub_diag, firstn_O, app_nil_r.
  rewrite (firstn_all2 pre) by lia.
  rewrite skipn_app, Hl.
  rewrite (skipn_all2 pre) by lia.
  replace (cg + length s1 + length s2 - (cg + length s1)) with (length s2) by lia.
  rewrite skipn_skipn, length_app. subst pre.
  rewrite <- !app_assoc. simpl.
  repeat (f_equal; try lia).
Qed.

Lemma assembles_skip : assembles (fun st : list D * nat => Some st) [].
Proof.
  intros g cg st' Hc H. injection H as <-. simpl.
  rewrite write_nil, Nat.add_0_r. auto.
Qed.

Lemma assembles_put (vals : list D) : assembles (fun st => put st vals) vals.
Proof.
  intros g cg st' Hc H. unfold put in H.
  inv_bind H. apply guard_Some, Nat.leb_le in Hx.
  injection H as <-. auto.
Qed.

Lemma assembles_guard (b : bool) (f : list D * nat -> option (list D * nat)) seg :
  assembles f seg -> assembles (fun st => _ <- guard b ;; f st) seg.
Proof.
  intros Hf g cg st' Hc H. inv_bind H. eauto.
Qed.

Lemma assembles_seq (f1 f2 : list D * nat -> option (list D * nat)) s1 s2 :
  assembles f1 s1 -> assembles f2 s2 ->
  assembles (fun st => st1 <- f1 st ;; f2 st1) (s1 ++ s2).
Proof.
  intros H1 H2 g cg st' Hc H. inv_bind H.
  destruct (H1 _ _ _ Hc Hx) as [Hle ->].
  apply H2 in H; [| rewrite length_write by lia; lia].
  rewrite length_write in H by lia.
  destruct H as [Hle2 ->].
  rewrite write_write, length_app by lia.
  split; [lia | f_equal; lia].
Qed.

Lemma assembles_foldM {A} (f : list D * nat -> A -> option (list D * nat))
      (seg : A -> list D) (l : list A) :
  (forall a, In a l -> assembles (fun st => f st a) (seg a)) ->
  assembles (foldM f l) (concat (map seg l)).
Proof.
  induction l as [|a l IH]; intros Hf; simpl.
  - apply assembles_skip.
  - apply (assembles_seq (f1 := fun st => f st a)).
    + apply Hf; left; reflexivity.
    + apply IH. intros b Hb. apply Hf; right; exact Hb.
Qed.

Lemma assembles_tot_skip : assembles_tot (fun st : list D * nat => Some st) [].
Proof.
  intros g cg _. simpl. rewrite write_nil, Nat.add_0_r. reflexivity.
Qed.

Lemma assembles_tot_put (vals : list D) : assembles_tot (fun st => put st vals) vals.
Proof.
  intros g cg H. unfold put.
  rewrite (guard_true (proj2 (Nat.leb_le _ _) H)). reflexivity.
Qed.

Lemma assembles_tot_seq (f1 f2 : list D * nat -> option (list D * nat)) s1 s2 :
  assembles_tot f1 s1 -> assembles_tot f2 s2 ->
  assembles_tot (fun st => st1 <- f1 st ;; f2 st1) (s1 ++ s2).
Proof.
  intros H1 H2 g cg H. rewrite length_app in H.
  rewrite H1 by lia. cbn [bind].
  rewrite H2 by (rewrite length_write; lia).
  rewrite write_write, length_app by lia.
  do 2 f_equal. lia.
Qed.

Lemma assembles_tot_foldM {A} (f : list D * nat -> A -> option (list D * nat))
      (seg : A -> list D) (l : list A) :
  (forall a, In a l -> assembles_tot (fun st => f st a) (seg a)) ->
  assembles_tot (foldM f l) (concat (map seg l)).
Proof.
  induction l as [|a l IH]; intros Hf; simpl.
  - apply assembles_tot_skip.
  - apply (assembles_tot_seq (f1 := fun st => f st a)).
    + apply Hf; left; reflexivity.
    + apply IH. intros b Hb. apply Hf; right; exact Hb.
Qed.

Lemma foldM_total {A S} (P : S -> Prop) (f : S -> A -> option S) (l : list A) :
  (forall s a, In a l -> P s -> exists s', f s a = Some s' /\ P s') ->
  forall s, P s -> exists s', foldM f l s = Some s' /\ P s'.
Proof.
  induction l as [|a l IH]; intros Hf s Hs; simpl.
  - eauto.
  - destruct (Hf s a (or_introl eq_refl) Hs) as (s1 & -> & Hs1). cbn [bind].
    apply IH; [| exact Hs1]. intros s0 b Hb. apply Hf. right. exact Hb.
Qed.

Lemma mapM_total {A B} (f : A -> option B) (l : list A) :
  (forall a, In a l -> exists b, f a = Some b) -> exists bs, mapM f l = Some bs.
Proof.
  induction l as [|a l IH]; intros Hf; simpl; [eauto|].
  destruct (Hf a (or_introl eq_refl)) as (b & ->). cbn [bind].
  destruct IH as (bs & ->); [intros c Hc; apply Hf; right; exact Hc|].
  cbn [bind]. eauto.
Qed.

Lemma In_find_from (l : list Z) :
  forall off a, In a (find_from off l) <->
                off <= a < off + length l /\ nth (a - off) l 0%Z <> 0%Z.
Proof.
  induction l as [|x l IH]; intros off a; simpl.
  - split; [tauto | lia].
  - destruct (x =? 0)%Z eqn:E.
    + rewrite IH. apply Z.eqb_eq in E. subst x. split.
      * intros [H1 H2]. split; [lia|].
        replace (a - off) with (S (a - S off)) by lia. exact H2.
      * intros [H1 H2]. destruct (a - off) as [|m] eqn:Em; [contradiction|].
        split; [lia|]. replace (a - S off) with m by lia. exact H2.
    + apply Z.eqb_neq in E. simpl. rewrite IH. split.
      * intros [<- | [H1 H2]].
        -- rewrite Nat.sub_diag. split; [lia | exact E].
        -- split; [lia|]. replace (a - off) with (S (a - S off)) by lia. exact H2.
      * intros [H1 H2]. destruct (a - off) as [|m] eqn:Em.
        -- left. lia.
        -- right. split; [lia|]. replace (a - S off) with m by lia. exact H2.
Qed.

(** [find] keeps exactly the positions of the nonzero entries. *)
Lemma In_find_map (n : nat) (f : nat -> Z) (a : nat) :
  In a (find (map f (seq 0 n))) <-> a < n /\ f a <> 0%Z.
Proof.
  unfold find. rewrite In_find_from, length_map, length_seq, Nat.sub_0_r.
  split; intros [H1 H2]; (split; [lia|]).
  - rewrite (nth_indep _ _ (f 0)) in H2 by (rewrite length_map, length_seq; lia).
    rewrite map_nth, seq_nth in H2 by lia. exact H2.
  - rewrite (nth_indep _ _ (f 0)) by (rewrite length_map, length_seq; lia).
    rewrite map_nth, seq_nth by lia. exact H2.
Qed.

Lemma rows_total (v : list D) (ind : list nat) :
  (forall a, In a ind -> a < length v) ->
  rows v ind = Some (map (fun a => nth a v d0) ind).
Proof.
  intros H. unfold rows. rewrite guard_true; [reflexivity|].
  apply forallb_forall. intros a Ha. apply Nat.ltb_lt, H, Ha.
Qed.

Lemma window_write (g : list D) (off : nat) (s : list D) :
  off + length s <= length g ->
  firstn (length s) (skipn off (write g off s)) = s.
Proof.
  intros H. unfold write.
  rewrite skipn_app, length_firstn, Nat.min_l by lia.
  rewrite Nat.sub_diag, (skipn_all2 (firstn off g)) by (rewrite length_firstn; lia).
  simpl. rewrite firstn_app, Nat.sub_diag, firstn_all. simpl. apply app_nil_r.
Qed.

Lemma write_over (g : list D) (off : nat) (s s' : list D) :
  off + length s <= length g -> length s' = length s ->
  write (write g off s) off s' = write g off s'.
Proof.
  intros H Hs. unfold write.
  rewrite firstn_app, length_firstn, Nat.min_l by lia.
  rewrite Nat.sub_diag, firstn_O, app_nil_r, firstn_firstn, Nat.min_id.
  f_equal. f_equal.
  rewrite skipn_app, length_firstn, Nat.min_l by lia.
  rewrite (skipn_all2 (firstn off g)) by (rewrite length_firstn; lia).
  simpl. rewrite Hs.
  replace (off + length s - off) with (length s) by lia.
  rewrite skipn_app, Nat.sub_diag, skipn_all. reflexivity.
Qed.

Lemma write_window (g : list D) (off n : nat) :
  write g off (firstn n (skipn off g)) = g.
Proof.
  unfold write. rewrite (Nat.add_comm off), <- skipn_skipn.
  set (t := skipn off g).
  assert (Ht : firstn n t ++ skipn (length (firstn n t)) t = t).
  { rewrite length_firstn.
    destruct (Nat.le_ge_cases n (length t)).
    - rewrite Nat.min_l by lia. apply firstn_skipn.
    - rewrite Nat.min_r by lia. rewrite firstn_all2, skipn_all by lia.
      apply app_nil_r. }
  rewrite Ht. apply firstn_skipn.
Qed.

Lemma updates_window_id (o : nat -> nat) (n : nat) :
  updates_window o n (fun st : list D * nat => Some st) (fun w => w).
Proof.
  intros g cg st' _ H. injection H as <-. rewrite write_window. reflexivity.
Qed.

Lemma updates_window_seq (o : nat -> nat) (n : nat)
      (f1 f2 : list D * nat -> option (list D * nat)) (u1 u2 : list D -> list D) :
  (forall w, length w = n -> length (u1 w) = n) ->
  (forall w, length w = n -> length (u2 w) = n) ->
  updates_window o n f1 u1 -> updates_window o n f2 u2 ->
  updates_window o n (fun st => st1 <- f1 st ;; f2 st1) (fun w => u2 (u1 w)).
Proof.
  intros L1 L2 H1 H2 g cg st' Hs H. inv_bind H.
  assert (Hw : length (firstn n (skipn (o cg) g)) = n)
    by (rewrite length_firstn, length_skipn; lia).
  pose proof (L1 _ Hw) as Hu1.
  rewrite (H1 _ _ _ Hs Hx) in H.
  apply H2 in H; [| rewrite length_write; lia].
  rewrite H. f_equal.
  rewrite <- Hu1 at 2. rewrite window_write by lia.
  apply write_over; [lia|]. rewrite Hu1. apply L2, Hu1.
Qed.

Lemma updates_window_foldM {A} (o : nat -> nat) (n : nat)
      (f : list D * nat -> A -> option (list D * nat))
      (u : A -> list D -> list D) (l : list A) :
  (forall a w, length w = n -> length (u a w) = n) ->
  (forall a, updates_window o n (fun st => f st a) (u a)) ->
  updates_window o n (foldM f l) (fun w => fold_left (fun v a => u a v) l w).
Proof.
  intros L H. induction l as [|a l IH]; simpl.
  - apply updates_window_id.
  - apply (updates_window_seq (f1 := fun st => f st a) (u1 := u a)); auto.
    intros w Hw. clear IH. revert w Hw.
    induction l as [|b l IH]; simpl; auto.
Qed.

Lemma foldM_invariant {A S} (P : S -> Prop) (f : S -> A -> option S) (l : list A) :
  (forall s a s', P s -> f s a = Some s' -> P s') ->
  forall s s', P s -> foldM f l s = Some s' -> P s'.
Proof.
  intros Hf. induction l as [|a l IH]; intros s s' Hs H; simpl in H.
  - injection H as <-. exact Hs.
  - inv_bind H. eauto.
Qed.

Lemma rows_Some (v : list D) (ind : list nat) (vals : list D) :
  rows v ind = Some vals ->
  vals = map (fun a => nth a v d0) ind /\ Forall (fun a => a < length v) ind.
Proof.
  unfold rows. intros H. inv_bind H. injection H as <-.
  apply guard_Some in Hx. split; [reflexivity|].
  apply Forall_forall. intros a Ha.
  rewrite forallb_forall in Hx. apply Nat.ltb_lt, Hx, Ha.
Qed.

(** ** Loops that accumulate into a vector, component by component *)

Lemma length_add_at (v : list D) (j : nat) (x : D) :
  length (add_at v j x) = length v.
Proof.
  unfold add_at. rewrite <- (firstn_skipn j v) at 3.
  rewrite !length_app. f_equal. destruct (skipn j v); reflexivity.
Qed.

Lemma nth_add_at (v : list D) (j b : nat) (x : D) :
  j < length v ->
  nth b (add_at v j x) d0 = if b =? j then dadd (nth b v d0) x else nth b v d0.
Proof.
  intros Hj. unfold add_at.
  assert (Hf : length (firstn j v) = j) by (rewrite length_firstn; lia).
  destruct (Nat.lt_ge_cases b j) as [Hlt|Hge].
  - rewrite app_nth1, nth_firstn by lia.
    destruct (Nat.ltb_spec b j); [| lia].
    destruct (Nat.eqb_spec b j); [lia | reflexivity].
  - rewrite app_nth2, Hf by lia.
    replace (nth b v d0) with (nth (b - j) (skipn j v) d0)
      by (rewrite nth_skipn; f_equal; lia).
    destruct (skipn j v) as [|y v'] eqn:E.
    { apply (f_equal (@length D)) in E. rewrite length_skipn in E. simpl in E. lia. }
    destruct (Nat.eqb_spec b j) as [->|Hne].
    + rewrite Nat.sub_diag. reflexivity.
    + destruct (b - j) as [|m] eqn:Em; [lia | reflexivity].
Qed.

Lemma fold_pointwise {A} (F : A -> list D -> list D) (h : A -> nat -> D -> D)
      (n : nat) (l : list A) :
  (forall x v, In x l -> length v = n -> length (F x v) = n) ->
  (forall x v b, In x l -> length v = n -> b < n ->
     nth b (F x v) d0 = h x b (nth b v d0)) ->
  forall v, length v = n ->
    length (fold_left (fun v x => F x v) l v) = n /\
    forall b, b < n ->
      nth b (fold_left (fun v x => F x v) l v) d0 =
      fold_left (fun acc x => h x b acc) l (nth b v d0).
Proof.
  induction l as [|x l IH]; intros HL HN v Hv; simpl.
  - auto.
  - destruct (IH (fun y w Hy => HL y w (or_intror Hy))
                 (fun y w b Hy => HN y w b (or_intror Hy))
                 (F x v) (HL _ _ (or_introl eq_refl) Hv)) as [H1 H2].
    split; [exact H1|].
    intros b Hb. rewrite H2, HN by (auto; left; reflexivity). reflexivity.
Qed.

Lemma fold_if_const {A} (c : bool) (phi : A -> D -> D) (l : list A) (a : D) :
  fold_left (fun acc x => if c then phi x acc else acc) l a =
  if c then fold_left (fun acc x => phi x acc) l a else a.
Proof.
  destruct c; [reflexivity|]. induction l; simpl; auto.
Qed.

Lemma fold_hit_once (psi : nat -> D -> D) (n b : nat) (a : D) :
  b < n ->
  fold_left (fun acc j => if b =? j then psi j acc else acc) (seq 0 n) a = psi b a.
Proof.
  intros Hb.
  assert (Hmiss : forall l acc, ~ In b l ->
            fold_left (fun acc j => if b =? j then psi j acc else acc) l acc = acc).
  { induction l as [|j l IH]; intros acc Hn; simpl; [reflexivity|].
    destruct (Nat.eqb_spec b j) as [->|_]; [exfalso; apply Hn; left; reflexivity|].
    apply IH. intros Hin. apply Hn. right. exact Hin. }
  replace n with (b + S (n - S b)) by lia.
  rewrite seq_app, fold_left_app. simpl.
  rewrite Nat.eqb_refl, (Hmiss (seq 0 b)) by (rewrite in_seq; lia).
  apply Hmiss. rewrite in_seq. lia.
Qed.

Lemma fold_left_ext_in {A B} (f g : B -> A -> B) (l : list A) (b : B) :
  (forall acc x, In x l -> f acc x = g acc x) -> fold_left f l b = fold_left g l b.
Proof.
  revert b. induction l as [|x l IH]; intros b H; simpl; [reflexivity|].
  rewrite H by (left; reflexivity). apply IH. intros acc y Hy. apply H. right. exact Hy.
Qed.

Lemma dsum_ext (n : nat) (f g : nat -> D) :
  (forall i, i < n -> f i = g i) -> dsum n f = dsum n g.
Proof.
  intros H. unfold dsum. apply fold_left_ext_in.
  intros acc i Hi. apply in_seq in Hi. rewrite H by lia. reflexivity.
Qed.

Lemma nth_map_seq (n : nat) (f : nat -> D) (b : nat) :
  b < n -> nth b (map f (seq 0 n)) d0 = f b.
Proof.
  intros Hb. rewrite (nth_indep _ _ (f 0)) by (rewrite length_map, length_seq; exact Hb).
  rewrite map_nth, seq_nth by exact Hb. reflexivity.
Qed.

(** [for j < n: v(j) += g j] adds [g b] to every component [b]. *)
Lemma add_all (n : nat) (g : nat -> D) (v : list D) :
  length v = n ->
  length (loop n (fun v j => add_at v j (g j)) v) = n /\
  forall b, b < n ->
    nth b (loop n (fun v j => add_at v j (g j)) v) d0 = dadd (nth b v d0) (g b).
Proof.
  intros Hv. unfold loop.
  destruct (@fold_pointwise nat (fun j v => add_at v j (g j))
              (fun j b acc => if b =? j then dadd acc (g j) else acc)
              n (seq 0 n)) with (v := v) as [H1 H2]; auto.
  - intros j w _ Hw. rewrite length_add_at. exact Hw.
  - intros j w b Hj Hw Hb. apply in_seq in Hj. apply nth_add_at. lia.
  - split; [exact H1|]. intros b Hb. rewrite H2 by exact Hb.
    apply (fold_hit_once (fun j acc => dadd acc (g j))). exact Hb.
Qed.

(** [for x in l: if c x then v(j) += g x] touches component [j] only. *)
Lemma add_one (A : Type) (n j : nat) (c : A -> bool) (g : A -> D) (l : list A) (v : list D) :
  length v = n -> j < n ->
  length (fold_left (fun v x => if c x then add_at v j (g x) else v) l v) = n /\
  forall b, b < n ->
    nth b (fold_left (fun v x => if c x then add_at v j (g x) else v) l v) d0 =
    if b =? j
    then fold_left (fun acc x => if c x then dadd acc (g x) else acc) l (nth b v d0)
    else nth b v d0.
Proof.
  intros Hv Hj.
  destruct (@fold_pointwise A (fun x v => if c x then add_at v j (g x) else v)
              (fun x b acc => if b =? j then (if c x then dadd acc (g x) else acc) else acc)
              n l) with (v := v) as [H1 H2]; auto.
  - intros x w _ Hw. destruct (c x); [rewrite length_add_at|]; exact Hw.
  - intros x w b _ Hw Hb. destruct (c x).
    + apply nth_add_at. lia.
    + destruct (b =? j); reflexivity.
  - split; [exact H1|]. intros b Hb. rewrite H2 by exact Hb.
    apply (fold_if_const (b =? j) (fun x acc => if c x then dadd acc (g x) else acc)).
Qed.

(** ** Each pass writes its segment *)

Variable internalForwardx :
  list D -> list D -> nat * nat * nat -> list D -> list nat -> nat * nat * nat ->
  list D * list D.
Variable internalBackward :
  list D -> list D -> nat * nat * nat -> list nat -> nat * nat * nat -> list D ->
  list D.

(** ** Well-formed masks: how many entries each pass writes *)

Section MaskFacts.

Variable inp : Input (D := D).

Lemma forallb_seq (n : nat) (f : nat -> bool) :
  forallb f (seq 0 n) = true -> forall i, i < n -> f i = true.
Proof.
  intros H i Hi. rewrite forallb_forall in H. apply H, in_seq. lia.
Qed.

Lemma masks_wf_spec :
  masks_wf inp = true ->
  mask01 (ANZ_mem inp) = true /\ mask01 (BNZ_mem inp) = true /\
  mask01 (INZ_mem inp) = true /\
  list_sum (numberOfStates inp) = eM inp /\ oR inp = eR inp /\
  (forall jj jj' i j, jj < J inp -> jj' < J inp -> jj <> jj' ->
     i < nS inp jj -> j < nS inp jj' ->
     ANZ inp (base inp jj + i) (base inp jj' + j) = 0%Z) /\
  (forall r i v, r < eR inp -> i < eM inp -> v < eP inp - 1 -> nSym inp r <= v ->
     BNZ inp i v r = 0%Z).
Proof.
  unfold masks_wf. intros H.
  repeat (apply andb_prop in H; destruct H as [H ?]).
  repeat split; auto; try (apply Nat.eqb_eq; assumption).
  - intros jj jj' i j Hjj Hjj' Hne Hi Hj.
    match goal with Hb : forallb _ (seq 0 (J inp)) = true |- _ =>
      pose proof (@forallb_seq _ _ (@forallb_seq _ _ Hb jj Hjj) jj' Hjj') as Hc end.
    apply orb_prop in Hc. destruct Hc as [Hc|Hc].
    + apply Nat.eqb_eq in Hc. contradiction.
    + apply Z.eqb_eq. exact (@forallb_seq _ _ (@forallb_seq _ _ Hc i Hi) j Hj).
  - intros r i v Hr Hi Hv Hn.
    match goal with Hb : forallb _ (seq 0 (eR inp)) = true |- _ =>
      pose proof (@forallb_seq _ _ (@forallb_seq _ _ (@forallb_seq _ _ Hb r Hr) i Hi) v Hv)
        as Hc end.
    apply orb_prop in Hc. destruct Hc as [Hc|Hc].
    + apply Nat.ltb_lt in Hc. lia.
    + apply Z.eqb_eq. exact Hc.
Qed.

Lemma base_prefix (jj : nat) :
  jj < J inp ->
  base inp jj = prefix (numberOfStates inp) jj /\
  cumsumstate inp jj = prefix (numberOfStates inp) jj + nS inp jj.
Proof.
  intros Hj. unfold base, cumsumstate, cumsum, nS.
  rewrite nth_cumsum_from by exact Hj. simpl. lia.
Qed.

Lemma shapes_wf_spec :
  shapes_wf inp = true ->
  1 <= J inp /\ 1 <= q inp /\ 1 <= eP inp /\
  (forall jj, jj < J inp -> 1 <= nS inp jj) /\
  (forall r, r < oR inp -> 1 <= nSym inp r <= eP inp).
Proof.
  unfold shapes_wf. intros H.
  apply andb_prop in H. destruct H as [H _].
  apply andb_prop in H. destruct H as [H HS].
  apply andb_prop in H. destruct H as [H HN].
  apply andb_prop in H. destruct H as [H HP].
  apply andb_prop in H. destruct H as [HJ Hq].
  split; [apply Nat.leb_le, HJ|]. split; [apply Nat.leb_le, Hq|].
  split; [apply Nat.leb_le, HP|]. split.
  - intros jj Hjj. apply Nat.leb_le. exact (@forallb_seq _ _ HN jj Hjj).
  - intros r Hr. pose proof (@forallb_seq _ _ HS r Hr) as Hc.
    apply andb_prop in Hc. destruct Hc as [H1 H2].
    split; apply Nat.leb_le; assumption.
Qed.

Lemma prefix_le (ns : list nat) :
  forall jj, jj < length ns -> prefix ns jj + nth jj ns 0 <= list_sum ns.
Proof.
  unfold prefix. induction ns as [|n ns IH]; intros jj Hj; simpl in Hj; [lia|].
  destruct jj as [|jj]; simpl; [lia|].
  specialize (IH jj). lia.
Qed.

Lemma prefix_S (ns : list nat) (jj : nat) :
  jj < length ns -> prefix ns (S jj) = prefix ns jj + nth jj ns 0.
Proof.
  unfold prefix. revert jj. induction ns as [|n ns IH]; intros jj Hj; simpl in Hj; [lia|].
  destruct jj as [|jj]; [simpl; lia|].
  specialize (IH jj ltac:(lia)).
  change (firstn (S (S jj)) (n :: ns)) with (n :: firstn (S jj) ns).
  change (firstn (S jj) (n :: ns)) with (n :: firstn jj ns).
  change (nth (S jj) (n :: ns) 0) with (nth jj ns 0).
  cbn [list_sum fold_right]. unfold list_sum in IH. lia.
Qed.

Lemma prefix_mono (ns : list nat) (jj jj' : nat) :
  jj < jj' -> jj' <= length ns -> prefix ns jj + nth jj ns 0 <= prefix ns jj'.
Proof.
  intros Hlt Hle. induction jj' as [|m IH]; [lia|].
  destruct (Nat.eq_dec jj m) as [->|Hne].
  - rewrite prefix_S by lia. lia.
  - rewrite (prefix_S ns (jj := m)) by lia. specialize (IH ltac:(lia) ltac:(lia)). lia.
Qed.

Lemma prefix_covers (ns : list nat) (s : nat) :
  s < list_sum ns ->
  exists jj, jj < length ns /\ prefix ns jj <= s < prefix ns jj + nth jj ns 0.
Proof.
  revert s. induction ns as [|n ns IH]; intros s Hs; simpl in Hs; [lia|].
  destruct (Nat.lt_ge_cases s n) as [Hlt|Hge].
  - exists 0. unfold prefix. simpl. split; lia.
  - destruct (IH (s - n) ltac:(lia)) as (jj & Hjj & Hb).
    exists (S jj). unfold prefix in *. simpl. split; lia.
Qed.

Lemma cumsumstate_le (jj : nat) :
  masks_wf inp = true -> jj < J inp -> cumsumstate inp jj <= eM inp.
Proof.
  intros Hwf Hjj. destruct (masks_wf_spec Hwf) as (_ & _ & _ & HM & _).
  destruct (base_prefix Hjj) as [_ ->]. rewrite <- HM.
  apply prefix_le. exact Hjj.
Qed.

Lemma nnz_ANZ :
  nnz (ANZ_mem inp) =
  nsum (eM inp) (fun i => nsum (eM inp) (fun j => nzb (ANZ inp i j))).
Proof.
  rewrite (nnz_nsum (n := eM inp * eM inp)).
  - rewrite nsum_mul, nsum_swap. reflexivity.
  - unfold ANZ_mem. rewrite length_firstn. lia.
Qed.

Lemma nnz_BNZ :
  nnz (BNZ_mem inp) =
  nsum (eR inp) (fun r => nsum (eM inp) (fun i =>
    nsum (eP inp - 1) (fun v => nzb (BNZ inp i v r)))).
Proof.
  rewrite (nnz_nsum (n := eM inp * (eP inp - 1) * eR inp)).
  - rewrite nsum_mul. apply nsum_ext. intros r _.
    rewrite nsum_mul, nsum_swap. reflexivity.
  - unfold BNZ_mem. rewrite length_firstn. lia.
Qed.

Lemma nnz_INZ :
  nnz (INZ_mem inp) = nsum (eM inp) (fun s => nzb (INZ inp s)).
Proof.
  apply nnz_nsum. unfold INZ_mem. rewrite length_firstn. lia.
Qed.

(** The number of entries the transition pass writes. *)
Lemma count_A :
  masks_wf inp = true ->
  nsum (J inp) (fun jj => nsum (nS inp jj) (fun i => length (indA inp jj i)))
  = nnz (ANZ_mem inp).
Proof.
  intros Hwf. destruct (masks_wf_spec Hwf) as (_ & _ & _ & HM & _ & HA & _).
  rewrite nnz_ANZ, <- HM, nsum_blocks.
  apply nsum_ext. intros jj Hjj. apply nsum_ext. intros i Hi.
  fold (nS inp jj) in Hi.
  destruct (base_prefix Hjj) as [Hb _]. rewrite <- Hb.
  unfold indA. rewrite nnz_map_seq, nsum_blocks.
  rewrite (nsum_single (n := length (numberOfStates inp)) (k := jj)); [| exact Hjj |].
  - apply nsum_ext. intros j _. destruct (base_prefix Hjj) as [<- _]. reflexivity.
  - intros jj' Hjj' Hne. apply nsum_zero. intros j Hj.
    destruct (base_prefix Hjj') as [<- _].
    rewrite HA; auto.
Qed.

Lemma count_B :
  masks_wf inp = true ->
  nsum (oR inp) (fun r => nsum (eM inp) (fun i => length (indB inp r i)))
  = nnz (BNZ_mem inp).
Proof.
  intros Hwf. destruct (masks_wf_spec Hwf) as (_ & _ & _ & _ & HR & _).
  rewrite nnz_BNZ, HR.
  apply nsum_ext. intros r _. apply nsum_ext. intros i _.
  unfold indB. apply nnz_map_seq.
Qed.

Lemma count_I :
  masks_wf inp = true ->
  nsum (J inp) (fun jj => length (indI inp jj)) = nnz (INZ_mem inp).
Proof.
  intros Hwf. destruct (masks_wf_spec Hwf) as (_ & _ & _ & HM & _).
  rewrite nnz_INZ, <- HM, nsum_blocks.
  apply nsum_ext. intros jj Hjj.
  unfold indI. rewrite nnz_map_seq.
  apply nsum_ext. intros j _. destruct (base_prefix Hjj) as [<- _]. reflexivity.
Qed.

End MaskFacts.

Section PassFacts.

Variable inp : Input (D := D).
Variable cols : list (list D).

Lemma rowA_assembles (jj i : nat) :
  assembles (rowA internalForwardx internalBackward inp cols jj i)
            (valsA internalForwardx internalBackward inp cols jj i).
Proof.
  unfold rowA, valsA. apply assembles_guard.
  destruct (indA inp jj i) as [|a ind] eqn:E.
  - apply assembles_skip.
  - intros g cg st' Hc H. inv_bind H.
    apply rows_Some in Hx. destruct Hx as [-> _].
    revert H. apply assembles_put. exact Hc.
Qed.

Lemma passA_assembles :
  assembles (passA internalForwardx internalBackward inp cols)
            (segA internalForwardx internalBackward inp cols).
Proof.
  unfold passA, segA. destruct (0 <? accu (ANZ_mem inp))%Z.
  - apply assembles_foldM. intros jj _.
    apply assembles_foldM. intros i _. apply rowA_assembles.
  - apply assembles_skip.
Qed.

Lemma rowB_assembles (r i : nat) :
  assembles (rowB internalForwardx internalBackward inp cols r i)
            (valsB internalForwardx internalBackward inp cols r i).
Proof.
  unfold rowB, valsB. apply assembles_guard.
  destruct (indB inp r i) as [|a ind] eqn:E.
  - apply assembles_skip.
  - apply assembles_guard.
    intros g cg st' Hc H. inv_bind H.
    apply rows_Some in Hx. destruct Hx as [-> _].
    revert H. apply assembles_put. exact Hc.
Qed.

Lemma passB_assembles :
  assembles (passB internalForwardx internalBackward inp cols)
            (segB internalForwardx internalBackward inp cols).
Proof.
  unfold passB, segB. destruct (0 <? accu (BNZ_mem inp))%Z.
  - apply assembles_foldM. intros r _.
    apply assembles_foldM. intros i _. apply rowB_assembles.
  - apply assembles_skip.
Qed.

Lemma rowI_assembles (i : nat) :
  assembles (rowI internalForwardx internalBackward inp cols i)
            (valsI internalForwardx internalBackward inp cols i).
Proof.
  unfold rowI, valsI. apply assembles_guard.
  destruct (indI inp i) as [|a ind] eqn:E.
  - apply assembles_skip.
  - intros g cg st' Hc H. inv_bind H.
    apply rows_Some in Hx. destruct Hx as [-> _].
    revert H. apply assembles_put. exact Hc.
Qed.

Lemma passI_assembles :
  assembles (passI internalForwardx internalBackward inp cols)
            (segI internalForwardx internalBackward inp cols).
Proof.
  unfold passI, segI. destruct (0 <? accu (INZ_mem inp))%Z.
  - apply assembles_foldM. intros i _. apply rowI_assembles.
  - apply assembles_skip.
Qed.

Lemma length_updX (jj k j : nat) (w : list D) :
  length (updX internalForwardx internalBackward inp cols jj k j w) = q inp.
Proof.
  unfold updX. destruct (_ && _); rewrite length_map, length_seq; reflexivity.
Qed.

Lemma stepX_window (jj k j : nat) :
  updates_window (fun cg => cg + q inp * (jj - 1)) (q inp)
    (stepX internalForwardx internalBackward inp cols jj k j)
    (updX internalForwardx internalBackward inp cols jj k j).
Proof.
  intros g cg st' Hs H. unfold stepX in H. inv_bind H.
  injection H as <-. reflexivity.
Qed.

Lemma blockX_window (jj : nat) :
  updates_window (fun cg => cg + q inp * (jj - 1)) (q inp)
    (fun st => foldM (fun st k =>
        foldM (fun st j => stepX internalForwardx internalBackward inp cols jj k j st)
              (seq 0 (eM inp)) st) (seq 0 (oK inp)) st)
    (fun w => loop (oK inp) (fun v k =>
        loop (eM inp)
             (fun v j => updX internalForwardx internalBackward inp cols jj k j v) v) w).
Proof.
  unfold loop.
  apply updates_window_foldM
    with (f := fun st k => foldM (fun st j =>
                   stepX internalForwardx internalBackward inp cols jj k j st)
                   (seq 0 (eM inp)) st)
         (u := fun k w => fold_left (fun v j =>
                   updX internalForwardx internalBackward inp cols jj k j v)
                   (seq 0 (eM inp)) w).
  - intros k w Hw. revert w Hw.
    induction (seq 0 (eM inp)) as [|j l IH]; simpl; auto.
    intros w Hw. apply IH, length_updX.
  - intros k.
    apply updates_window_foldM
      with (f := fun st j => stepX internalForwardx internalBackward inp cols jj k j st)
           (u := fun j w => updX internalForwardx internalBackward inp cols jj k j w).
    + intros j w _. apply length_updX.
    + intros j. apply stepX_window.
Qed.

Lemma length_rowX (jj : nat) :
  length (rowX internalForwardx internalBackward inp cols jj) = q inp.
Proof.
  unfold rowX, loop.
  assert (H : forall l1 l2 w, length w = q inp ->
    length (fold_left (fun v k => fold_left (fun v j =>
       updX internalForwardx internalBackward inp cols jj k j v) l2 v) l1 w) = q inp).
  { induction l1 as [|k l1 IH]; simpl; auto.
    intros l2 w Hw. apply IH. clear IH. revert w Hw.
    induction l2 as [|j l2 IH]; simpl; auto.
    intros w Hw. apply IH, length_updX. }
  apply H, repeat_length.
Qed.

Lemma passX_zeros (n : nat) :
  forall a pre post cg st',
    1 <= a -> length pre = cg + q inp * (a - 1) ->
    foldM (fun st jj => foldM (fun st k =>
        foldM (fun st j => stepX internalForwardx internalBackward inp cols jj k j st)
              (seq 0 (eM inp)) st) (seq 0 (oK inp)) st)
      (seq a n) (pre ++ repeat d0 (n * q inp) ++ post, cg) = Some st' ->
    st' = (pre ++ concat (map (rowX internalForwardx internalBackward inp cols) (seq a n))
               ++ post, cg).
Proof.
  induction n as [|n IH]; intros a pre post cg st' Ha Hpre H; simpl in H.
  - injection H as <-. reflexivity.
  - inv_bind H. destruct x as [g1 cg1].
    apply blockX_window in Hx.
    2:{ rewrite !length_app, repeat_length. simpl. lia. }
    rewrite <- Hpre in Hx.
    rewrite skipn_app, Nat.sub_diag, skipn_all in Hx. simpl in Hx.
    rewrite repeat_app, <- app_assoc in Hx.
    rewrite firstn_app, repeat_length, Nat.sub_diag, firstn_O, app_nil_r in Hx.
    rewrite firstn_all2 in Hx by (rewrite repeat_length; lia).
    fold (rowX internalForwardx internalBackward inp cols a) in Hx.
    injection Hx as -> ->.
    unfold write in H.
    rewrite firstn_app, Nat.sub_diag, firstn_all, firstn_O, app_nil_r in H.
    rewrite length_rowX in H.
    rewrite skipn_app, (skipn_all2 pre), app_nil_l in H by lia.
    replace (length pre + q inp - length pre) with (q inp) in H by lia.
    rewrite skipn_app, repeat_length, Nat.sub_diag in H.
    rewrite (skipn_all2 (repeat d0 (q inp))) in H by (rewrite repeat_length; lia).
    simpl in H.
    rewrite (app_assoc pre) in H.
    apply IH in H; [| lia |].
    2:{ rewrite length_app, length_rowX, Hpre.
        destruct a as [|a']; [lia|]. simpl. rewrite Nat.sub_0_r, Nat.mul_succ_r. lia. }
    rewrite H. simpl. rewrite <- !app_assoc. reflexivity.
Qed.

Lemma length_segA :
  masks_wf inp = true ->
  length (segA internalForwardx internalBackward inp cols) = nnz (ANZ_mem inp).
Proof.
  intros Hwf. destruct (masks_wf_spec inp Hwf) as (HA & _).
  unfold segA. destruct (0 <? accu (ANZ_mem inp))%Z eqn:E.
  - rewrite <- (count_A inp Hwf), length_concat_map. unfold nsum. f_equal.
    apply map_ext. intros jj. rewrite length_concat_map. f_equal.
    apply map_ext. intros i. unfold valsA. apply length_map.
  - rewrite (accu_mask01 _ HA) in E. apply Z.ltb_ge in E. simpl. lia.
Qed.

Lemma length_segB :
  masks_wf inp = true ->
  length (segB internalForwardx internalBackward inp cols) = nnz (BNZ_mem inp).
Proof.
  intros Hwf. destruct (masks_wf_spec inp Hwf) as (_ & HB & _).
  unfold segB. destruct (0 <? accu (BNZ_mem inp))%Z eqn:E.
  - rewrite <- (count_B inp Hwf), length_concat_map. unfold nsum. f_equal.
    apply map_ext. intros r. rewrite length_concat_map. f_equal.
    apply map_ext. intros i. unfold valsB. apply length_map.
  - rewrite (accu_mask01 _ HB) in E. apply Z.ltb_ge in E. simpl. lia.
Qed.

Lemma length_segI :
  masks_wf inp = true ->
  length (segI internalForwardx internalBackward inp cols) = nnz (INZ_mem inp).
Proof.
  intros Hwf. destruct (masks_wf_spec inp Hwf) as (_ & _ & HI & _).
  unfold segI. destruct (0 <? accu (INZ_mem inp))%Z eqn:E.
  - rewrite <- (count_I inp Hwf), length_concat_map. unfold nsum. f_equal.
    apply map_ext. intros i. unfold valsI. apply length_map.
  - rewrite (accu_mask01 _ HI) in E. apply Z.ltb_ge in E. simpl. lia.
Qed.

Lemma length_segX :
  length (segX internalForwardx internalBackward inp cols) = (J inp - 1) * q inp.
Proof.
  unfold segX. rewrite length_concat_map.
  generalize (J inp - 1) as n. intros n. generalize 1 as a.
  induction n as [|n IH]; intros a; simpl; [reflexivity|].
  rewrite length_rowX, IH. reflexivity.
Qed.

Lemma stepX_length (jj k j : nat) (st st' : list D * nat) :
  stepX internalForwardx internalBackward inp cols jj k j st = Some st' ->
  length (fst st') = length (fst st).
Proof.
  destruct st as [g cg]. unfold stepX. intros H. inv_bind H.
  apply guard_Some, andb_prop in Hx. destruct Hx as [_ Hx].
  apply Nat.leb_le in Hx. injection H as <-. simpl.
  apply length_write. rewrite length_updX. exact Hx.
Qed.

Lemma passX_length (st st' : list D * nat) :
  passX internalForwardx internalBackward inp cols st = Some st' ->
  length (fst st') = length (fst st).
Proof.
  unfold passX.
  apply (foldM_invariant (fun s : list D * nat => length (fst s) = length (fst st)));
    [| reflexivity].
  intros s jj s' Hs.
  apply (foldM_invariant (fun s : list D * nat => length (fst s) = length (fst st)));
    [| exact Hs].
  clear s s' Hs. intros s k s' Hs.
  apply (foldM_invariant (fun s : list D * nat => length (fst s) = length (fst st)));
    [| exact Hs].
  clear s s' Hs. intros s j s' Hs H.
  rewrite (stepX_length _ _ _ _ H). exact Hs.
Qed.

(** ** Well-formed arguments pass every check *)

Lemma length_matvec (n : nat) (G : nat -> nat -> D) (v : list D) :
  length (matvec n G v) = n.
Proof. unfold matvec. rewrite length_map, length_seq. reflexivity. Qed.

Lemma rowA_tot (jj i : nat) :
  masks_wf inp = true -> jj < J inp ->
  assembles_tot (rowA internalForwardx internalBackward inp cols jj i)
                (valsA internalForwardx internalBackward inp cols jj i).
Proof.
  intros Hwf Hjj g cg Hsp. unfold rowA, valsA in *.
  rewrite (guard_true (proj2 (Nat.leb_le _ _) (cumsumstate_le inp Hwf Hjj))).
  cbn [bind].
  pose proof (fun a => proj1 (In_find_map (nS inp jj)
     (fun j => ANZ inp (base inp jj + i) (base inp jj + j)) a)) as Hin.
  fold (indA inp jj i) in Hin.
  destruct (indA inp jj i) as [|a ind].
  - simpl. rewrite write_nil, Nat.add_0_r. reflexivity.
  - rewrite rows_total.
    + cbn [bind]. apply assembles_tot_put. exact Hsp.
    + intros b Hb. rewrite length_matvec. apply Hin, Hb.
Qed.

Lemma passA_tot :
  masks_wf inp = true ->
  assembles_tot (passA internalForwardx internalBackward inp cols)
                (segA internalForwardx internalBackward inp cols).
Proof.
  intros Hwf. unfold passA, segA. destruct (0 <? accu (ANZ_mem inp))%Z.
  - apply assembles_tot_foldM. intros jj Hjj. apply in_seq in Hjj.
    apply assembles_tot_foldM. intros i _. apply rowA_tot; [exact Hwf | lia].
  - apply assembles_tot_skip.
Qed.

Lemma rowB_tot (r i : nat) :
  masks_wf inp = true -> shapes_wf inp = true -> r < oR inp -> i < eM inp ->
  assembles_tot (rowB internalForwardx internalBackward inp cols r i)
                (valsB internalForwardx internalBackward inp cols r i).
Proof.
  intros Hwf Hsh Hr Hi g cg Hsp. unfold rowB, valsB in *.
  destruct (masks_wf_spec inp Hwf) as (_ & _ & _ & _ & HR & _ & HB).
  destruct (shapes_wf_spec inp Hsh) as (_ & _ & _ & _ & HS).
  rewrite (guard_true (proj2 (Nat.ltb_lt _ _) (eq_ind _ (fun x => r < x) Hr _ HR))).
  cbn [bind].
  pose proof (fun a => proj1 (In_find_map (eP inp - 1) (fun v => BNZ inp i v r) a)) as Hin.
  fold (indB inp r i) in Hin.
  destruct (indB inp r i) as [|a ind].
  - simpl. rewrite write_nil, Nat.add_0_r. reflexivity.
  - rewrite guard_true.
    2:{ apply andb_true_intro. split; apply Nat.leb_le; apply HS, Hr. }
    cbn [bind]. rewrite rows_total.
    + cbn [bind]. apply assembles_tot_put. exact Hsp.
    + intros b Hb. rewrite length_matvec. destruct (Hin b Hb) as [Hb1 Hb2].
      destruct (Nat.lt_ge_cases b (nSym inp r)) as [Hlt|Hge]; [exact Hlt|].
      exfalso. apply Hb2. apply HB; auto. rewrite <- HR. exact Hr.
Qed.

Lemma passB_tot :
  masks_wf inp = true -> shapes_wf inp = true ->
  assembles_tot (passB internalForwardx internalBackward inp cols)
                (segB internalForwardx internalBackward inp cols).
Proof.
  intros Hwf Hsh. unfold passB, segB. destruct (0 <? accu (BNZ_mem inp))%Z.
  - apply assembles_tot_foldM. intros r Hr. apply in_seq in Hr.
    apply assembles_tot_foldM. intros i Hi. apply in_seq in Hi.
    apply rowB_tot; auto; lia.
  - apply assembles_tot_skip.
Qed.

Lemma rowI_tot (i : nat) :
  masks_wf inp = true -> shapes_wf inp = true -> i < J inp ->
  assembles_tot (rowI internalForwardx internalBackward inp cols i)
                (valsI internalForwardx internalBackward inp cols i).
Proof.
  intros Hwf Hsh Hi g cg Hsp. unfold rowI, valsI in *.
  destruct (shapes_wf_spec inp Hsh) as (_ & _ & _ & HN & _).
  rewrite guard_true.
  2:{ apply andb_true_intro. split; apply Nat.leb_le;
      [apply HN, Hi | apply cumsumstate_le; assumption]. }
  cbn [bind].
  pose proof (fun a => proj1 (In_find_map (nS inp i)
     (fun j => INZ inp (base inp i + j)) a)) as Hin.
  fold (indI inp i) in Hin.
  destruct (indI inp i) as [|a ind].
  - simpl. rewrite write_nil, Nat.add_0_r. reflexivity.
  - rewrite rows_total.
    + cbn [bind]. apply assembles_tot_put. exact Hsp.
    + intros b Hb. rewrite length_matvec. apply Hin, Hb.
Qed.

Lemma passI_tot :
  masks_wf inp = true -> shapes_wf inp = true ->
  assembles_tot (passI internalForwardx internalBackward inp cols)
                (segI internalForwardx internalBackward inp cols).
Proof.
  intros Hwf Hsh. unfold passI, segI. destruct (0 <? accu (INZ_mem inp))%Z.
  - apply assembles_tot_foldM. intros i Hi. apply in_seq in Hi.
    apply rowI_tot; auto; lia.
  - apply assembles_tot_skip.
Qed.

Lemma passX_tot (g : list D) (cg : nat) :
  1 <= q inp -> cg + (J inp - 1) * q inp <= length g ->
  exists st', passX internalForwardx internalBackward inp cols (g, cg) = Some st'.
Proof.
  intros Hq Hsp.
  pose (P := fun s : list D * nat => length (fst s) = length g /\ snd s = cg).
  assert (H : exists st', passX internalForwardx internalBackward inp cols (g, cg) = Some st'
                          /\ P st').
  { unfold passX. apply foldM_total; [| split; reflexivity].
    intros s jj Hjj Hs. apply in_seq in Hjj.
    apply foldM_total; [| exact Hs]. clear s Hs.
    intros s k _ Hs. apply foldM_total; [| exact Hs]. clear s Hs.
    intros [g1 cg1] j _ [Hl Hc]. simpl in Hl, Hc. subst cg1.
    assert (Hoff : cg + q inp * (jj - 1) + q inp <= length g1).
    { rewrite Hl. apply Nat.le_trans with (cg + (J inp - 1) * q inp); [| exact Hsp].
      rewrite <- Nat.add_assoc. apply Nat.add_le_mono_l.
      rewrite <- Nat.mul_succ_r, Nat.mul_comm.
      apply Nat.mul_le_mono_r. lia. }
    unfold stepX. rewrite guard_true.
    2:{ apply andb_true_intro. split; apply Nat.leb_le; assumption. }
    cbn [bind]. eexists. split; [reflexivity|]. split; simpl; [| reflexivity].
    rewrite length_write; [exact Hl|]. rewrite length_updX. exact Hoff. }
  destruct H as (st' & H & _). eauto.
Qed.

(** ** What the accumulation loops leave in each component *)

Lemma gradArow_nth (jj i b : nat) :
  b < nS inp jj ->
  nth b (gradArow internalForwardx internalBackward inp cols jj i) d0 =
  fold_left (fun acc k =>
    fold_left (fun acc t =>
      dadd acc (termA internalForwardx internalBackward inp cols jj i b t k))
      (seq 0 (oN inp - 1)) acc)
    (seq 0 (oK inp)) d0.
Proof.
  intros Hb. unfold gradArow. unfold loop at 1 2.
  set (term := termA internalForwardx internalBackward inp cols jj i).
  destruct (@fold_pointwise nat
    (fun k v => fold_left (fun v t =>
       loop (nS inp jj) (fun v j => add_at v j (term j t k)) v) (seq 0 (oN inp - 1)) v)
    (fun k b acc => fold_left (fun acc t => dadd acc (term b t k))
                      (seq 0 (oN inp - 1)) acc)
    (nS inp jj) (seq 0 (oK inp))) with (v := repeat (d0 (D := D)) (nS inp jj))
    as [_ H2].
  - intros k v _ Hv.
    apply (@fold_pointwise nat
      (fun t v => loop (nS inp jj) (fun v j => add_at v j (term j t k)) v)
      (fun t b acc => dadd acc (term b t k)) (nS inp jj)); auto.
    + intros t w _ Hw. exact (proj1 (@add_all (nS inp jj) (fun j => term j t k) w Hw)).
    + intros t w c _ Hw Hc. exact (proj2 (@add_all (nS inp jj) (fun j => term j t k) w Hw) c Hc).
  - intros k v c _ Hv Hc.
    apply (@fold_pointwise nat
      (fun t v => loop (nS inp jj) (fun v j => add_at v j (term j t k)) v)
      (fun t b acc => dadd acc (term b t k)) (nS inp jj)); auto.
    + intros t w _ Hw. exact (proj1 (@add_all (nS inp jj) (fun j => term j t k) w Hw)).
    + intros t w c' _ Hw Hc'. exact (proj2 (@add_all (nS inp jj) (fun j => term j t k) w Hw) c' Hc').
  - apply repeat_length.
  - rewrite H2 by exact Hb. rewrite nth_repeat_lt by exact Hb. reflexivity.
Qed.

Lemma gradIrow_nth (i b : nat) :
  b < nS inp i ->
  nth b (gradIrow internalForwardx internalBackward inp cols i) d0 =
  dsum (oK inp) (fun k => termI internalForwardx internalBackward inp cols i b k).
Proof.
  intros Hb. unfold gradIrow. unfold loop at 1.
  set (term := termI internalForwardx internalBackward inp cols i).
  destruct (@fold_pointwise nat
    (fun j v => loop (oK inp) (fun v k => add_at v j (term j k)) v)
    (fun j b acc => if b =? j
                    then fold_left (fun acc k => dadd acc (term j k)) (seq 0 (oK inp)) acc
                    else acc)
    (nS inp i) (seq 0 (nS inp i))) with (v := repeat (d0 (D := D)) (nS inp i))
    as [_ H2].
  - intros j v Hj Hv. apply in_seq in Hj.
    assert (Hj' : j < nS inp i) by lia.
    exact (proj1 (@add_one nat (nS inp i) j (fun _ => true) (fun k => term j k)
                    (seq 0 (oK inp)) v Hv Hj')).
  - intros j v c Hj Hv Hc. apply in_seq in Hj.
    assert (Hj' : j < nS inp i) by lia.
    exact (proj2 (@add_one nat (nS inp i) j (fun _ => true) (fun k => term j k)
                    (seq 0 (oK inp)) v Hv Hj') c Hc).
  - apply repeat_length.
  - rewrite H2 by exact Hb. rewrite nth_repeat_lt by exact Hb.
    apply (fold_hit_once
             (fun j acc => fold_left (fun acc k => dadd acc (term j k)) (seq 0 (oK inp)) acc)).
    exact Hb.
Qed.

Lemma gradBrow_nth (r i b : nat) :
  b < nSym inp r ->
  nth b (gradBrow internalForwardx internalBackward inp cols r i) d0 =
  fold_left (fun acc k =>
    fold_left (fun acc t =>
      if obs inp k (t + 1) r =? b
      then dadd acc (termB internalForwardx internalBackward inp cols r i t k)
      else acc)
      (seq 0 (oN inp - 1))
      (if obs inp k 0 r =? b
       then dadd acc (termB0 internalForwardx internalBackward inp cols r i k)
       else acc))
    (seq 0 (oK inp)) d0.
Proof.
  intros Hb. unfold gradBrow. unfold loop.
  set (t0 := termB0 internalForwardx internalBackward inp cols r i).
  set (t1 := termB internalForwardx internalBackward inp cols r i).
  set (n := nSym inp r) in *.
  pose (psi := fun j acc =>
    fold_left (fun acc k =>
      fold_left (fun acc t => if obs inp k (t + 1) r =? j then dadd acc (t1 t k) else acc)
        (seq 0 (oN inp - 1))
        (if obs inp k 0 r =? j then dadd acc (t0 k) else acc))
      (seq 0 (oK inp)) acc).
  assert (Hstep : forall j v, j < n -> length v = n ->
    length (fold_left (fun v k =>
       fold_left (fun v t => if obs inp k (t + 1) r =? j then add_at v j (t1 t k) else v)
         (seq 0 (oN inp - 1))
         (if obs inp k 0 r =? j then add_at v j (t0 k) else v))
       (seq 0 (oK inp)) v) = n /\
    forall c, c < n ->
      nth c (fold_left (fun v k =>
         fold_left (fun v t => if obs inp k (t + 1) r =? j then add_at v j (t1 t k) else v)
           (seq 0 (oN inp - 1))
           (if obs inp k 0 r =? j then add_at v j (t0 k) else v))
         (seq 0 (oK inp)) v) d0 =
      if c =? j then psi j (nth c v d0) else nth c v d0).
  { intros j v Hj Hv.
    assert (Hk : forall k w, length w = n ->
      length (fold_left (fun v t =>
                if obs inp k (t + 1) r =? j then add_at v j (t1 t k) else v)
                (seq 0 (oN inp - 1))
                (if obs inp k 0 r =? j then add_at w j (t0 k) else w)) = n /\
      forall c, c < n ->
        nth c (fold_left (fun v t =>
                if obs inp k (t + 1) r =? j then add_at v j (t1 t k) else v)
                (seq 0 (oN inp - 1))
                (if obs inp k 0 r =? j then add_at w j (t0 k) else w)) d0 =
        if c =? j
        then fold_left (fun acc t =>
               if obs inp k (t + 1) r =? j then dadd acc (t1 t k) else acc)
               (seq 0 (oN inp - 1))
               (if obs inp k 0 r =? j then dadd (nth c w d0) (t0 k) else nth c w d0)
        else nth c w d0).
    { intros k w Hw.
      assert (Hw0 : length (if obs inp k 0 r =? j then add_at w j (t0 k) else w) = n)
        by (destruct (obs inp k 0 r =? j); [rewrite length_add_at|]; exact Hw).
      destruct (@add_one nat n j (fun t => obs inp k (t + 1) r =? j) (fun t => t1 t k)
                  (seq 0 (oN inp - 1)) _ Hw0 Hj) as [H1 H2].
      split; [exact H1|]. intros c Hc. rewrite H2 by exact Hc.
      destruct (Nat.eqb_spec c j) as [->|Hne].
      - destruct (obs inp k 0 r =? j); [| reflexivity].
        rewrite nth_add_at, Nat.eqb_refl by lia. reflexivity.
      - destruct (obs inp k 0 r =? j); [| reflexivity].
        rewrite nth_add_at by lia.
        destruct (Nat.eqb_spec c j); [contradiction | reflexivity]. }
    destruct (@fold_pointwise nat
      (fun k w => fold_left (fun v t =>
           if obs inp k (t + 1) r =? j then add_at v j (t1 t k) else v)
           (seq 0 (oN inp - 1))
           (if obs inp k 0 r =? j then add_at w j (t0 k) else w))
      (fun k c acc => if c =? j
          then fold_left (fun acc t =>
                 if obs inp k (t + 1) r =? j then dadd acc (t1 t k) else acc)
                 (seq 0 (oN inp - 1))
                 (if obs inp k 0 r =? j then dadd acc (t0 k) else acc)
          else acc)
      n (seq 0 (oK inp))) with (v := v) as [H1 H2]; auto.
    - intros k w _ Hw. apply Hk, Hw.
    - intros k w c _ Hw Hc. apply (proj2 (Hk k w Hw)), Hc.
    - split; [exact H1|]. intros c Hc. rewrite H2 by exact Hc.
      apply (fold_if_const (c =? j)
               (fun k acc => fold_left (fun acc t =>
                   if obs inp k (t + 1) r =? j then dadd acc (t1 t k) else acc)
                   (seq 0 (oN inp - 1))
                   (if obs inp k 0 r =? j then dadd acc (t0 k) else acc))). }
  destruct (@fold_pointwise nat
    (fun j v => fold_left (fun v k =>
         fold_left (fun v t => if obs inp k (t + 1) r =? j then add_at v j (t1 t k) else v)
           (seq 0 (oN inp - 1))
           (if obs inp k 0 r =? j then add_at v j (t0 k) else v))
         (seq 0 (oK inp)) v)
    (fun j c acc => if c =? j then psi j acc else acc)
    n (seq 0 n)) with (v := repeat (d0 (D := D)) n) as [_ H2].
  - intros j v Hj Hv. apply in_seq in Hj. apply Hstep; [lia | exact Hv].
  - intros j v c Hj Hv Hc. apply in_seq in Hj.
    apply (proj2 (Hstep j v ltac:(lia) Hv)), Hc.
  - apply repeat_length.
  - rewrite H2 by exact Hb. rewrite nth_repeat_lt by exact Hb.
    apply (fold_hit_once psi). exact Hb.
Qed.

Lemma rowX_nth (jj c : nat) :
  c < q inp ->
  nth c (rowX internalForwardx internalBackward inp cols jj) d0 =
  fold_left (fun acc k =>
    fold_left (fun acc j =>
      if (base inp jj <=? j) && (j <? cumsumstate inp jj)
      then dadd acc (dmul (dmul (termX internalForwardx internalBackward inp cols j k)
                                (X inp k c))
                          (dsub d1 (lweights inp jj k)))
      else dsub acc (dmul (dmul (termX internalForwardx internalBackward inp cols j k)
                                (X inp k c))
                          (lweights inp jj k)))
      (seq 0 (eM inp)) acc)
    (seq 0 (oK inp)) d0.
Proof.
  intros Hc. unfold rowX, loop.
  set (upd := updX internalForwardx internalBackward inp cols jj).
  set (h := fun k j c acc =>
      if (base inp jj <=? j) && (j <? cumsumstate inp jj)
      then dadd acc (dmul (dmul (termX internalForwardx internalBackward inp cols j k)
                                (X inp k c))
                          (dsub d1 (lweights inp jj k)))
      else dsub acc (dmul (dmul (termX internalForwardx internalBackward inp cols j k)
                                (X inp k c))
                          (lweights inp jj k))).
  assert (Hupd : forall k j v c, c < q inp -> nth c (upd k j v) d0 = h k j c (nth c v d0)).
  { intros k j v c' Hc'. unfold upd, updX, h.
    destruct (_ && _); rewrite nth_map_seq by exact Hc'; reflexivity. }
  assert (Hk : forall k v, length v = q inp ->
    length (fold_left (fun v j => upd k j v) (seq 0 (eM inp)) v) = q inp /\
    forall c, c < q inp ->
      nth c (fold_left (fun v j => upd k j v) (seq 0 (eM inp)) v) d0 =
      fold_left (fun acc j => h k j c acc) (seq 0 (eM inp)) (nth c v d0)).
  { intros k v Hv.
    apply (@fold_pointwise nat (fun j v => upd k j v) (fun j c acc => h k j c acc)
             (q inp) (seq 0 (eM inp))); [ | | exact Hv].
    - intros j w _ _. apply length_updX.
    - intros j w c' _ _ Hc'. apply Hupd, Hc'. }
  destruct (@fold_pointwise nat
    (fun k v => fold_left (fun v j => upd k j v) (seq 0 (eM inp)) v)
    (fun k c acc => fold_left (fun acc j => h k j c acc) (seq 0 (eM inp)) acc)
    (q inp) (seq 0 (oK inp))) with (v := repeat (d0 (D := D)) (q inp)) as [_ H2].
  - intros k v _ Hv. apply Hk, Hv.
  - intros k v c' _ Hv Hc'. apply (proj2 (Hk k v Hv)), Hc'.
  - apply repeat_length.
  - rewrite H2 by exact Hc. rewrite nth_repeat_lt by exact Hc. reflexivity.
Qed.

End PassFacts.

(** ** A run of [objectivex] *)

Section RunFacts.

Variable inp : Input (D := D).

Lemma skipn_zeros (n m : nat) : skipn m (repeat (d0 (D := D)) n) = repeat d0 (n - m).
Proof.
  revert m. induction n as [|n IH]; intros [|m]; simpl; auto.
Qed.

Lemma write_zeros (n : nat) (s : list D) :
  write (repeat d0 n) 0 s = s ++ repeat d0 (n - length s).
Proof. unfold write. simpl. rewrite skipn_zeros. reflexivity. Qed.

Lemma grad_len_wf :
  masks_wf inp = true -> 1 <= J inp ->
  grad_len inp = Z.of_nat (nnz (ANZ_mem inp) + nnz (BNZ_mem inp) + nnz (INZ_mem inp)
                           + (J inp - 1) * q inp).
Proof.
  intros Hwf HJ. destruct (masks_wf_spec inp Hwf) as (HA & HB & HI & _).
  unfold grad_len.
  rewrite (accu_mask01 _ HA), (accu_mask01 _ HB), (accu_mask01 _ HI).
  rewrite !Nat2Z.inj_add, Nat2Z.inj_mul, Nat2Z.inj_sub by lia. reflexivity.
Qed.

(** *** The mixture-weighted initial vectors *)

Lemma length_reparma (x : list D) :
  forall y, length x = length y -> length (reparma x y) = list_sum y.
Proof.
  induction x as [|a x IH]; intros [|n y] H; simpl in *; try discriminate; auto.
  rewrite length_app, repeat_length, IH by lia. reflexivity.
Qed.

Lemma nth_reparma (x : list D) :
  forall y jj i, jj < length x -> jj < length y -> i < nth jj y 0 ->
    nth (prefix y jj + i) (reparma x y) d0 = nth jj x d0.
Proof.
  induction x as [|a x IH]; intros [|n y] jj i Hx Hy Hi; simpl in *; try lia.
  destruct jj as [|jj].
  - unfold prefix. simpl. rewrite app_nth1 by (rewrite repeat_length; exact Hi).
    apply nth_repeat_lt. exact Hi.
  - unfold prefix. simpl. fold (prefix y jj).
    rewrite app_nth2 by (rewrite repeat_length; lia).
    rewrite repeat_length.
    replace (n + prefix y jj + i - n) with (prefix y jj + i) by lia.
    apply IH; lia.
Qed.

Lemma mapM_nth {A B} (f : A -> option B) (l : list A) (da : A) (db : B) :
  forall bs, mapM f l = Some bs ->
    length bs = length l /\
    forall i, i < length l -> f (nth i l da) = Some (nth i bs db).
Proof.
  induction l as [|a l IH]; intros bs H; simpl in H.
  - injection H as <-. split; [reflexivity | simpl; lia].
  - inv_bind H. inv_bind H. injection H as <-.
    destruct (IH _ Hx0) as [Hl Hn]. split; [simpl; lia|].
    intros [|i] Hi; simpl; [exact Hx | apply Hn; simpl in Hi; lia].
Qed.

Lemma initk_cols_spec (cols : list (list D)) :
  initk_cols inp = Some cols ->
  length cols = oK inp /\
  forall k, k < oK inp ->
    eM inp = list_sum (numberOfStates inp) /\
    nth k cols [] =
      map (fun s => dmul (init inp s)
                      (nth s (reparma (map (fun j => lweights inp j k) (seq 0 (J inp)))
                                      (numberOfStates inp)) d0))
          (seq 0 (eM inp)).
Proof.
  unfold initk_cols. intros H.
  destruct (mapM_nth _ _ 0 [] H) as [Hl Hn]. rewrite length_seq in Hl, Hn.
  split; [exact Hl|]. intros k Hk. specialize (Hn k Hk).
  rewrite seq_nth in Hn by exact Hk. simpl in Hn.
  unfold initk_col in Hn. inv_bind Hn. injection Hn as Hn.
  apply guard_Some, Nat.eqb_eq in Hx.
  rewrite length_reparma in Hx by (rewrite length_map, length_seq; reflexivity).
  split; [exact Hx | symmetry; exact Hn].
Qed.

Lemma initk_cols_total :
  list_sum (numberOfStates inp) = eM inp -> exists cols, initk_cols inp = Some cols.
Proof.
  intros HM. unfold initk_cols. apply mapM_total. intros k _.
  unfold initk_col. rewrite guard_true; [cbn [bind]; eauto|].
  apply Nat.eqb_eq.
  rewrite length_reparma by (rewrite length_map, length_seq; reflexivity).
  symmetry. exact HM.
Qed.

Lemma run_overflow :
  lweights_finite inp = false ->
  1 <= eP inp -> (0 <= grad_len inp)%Z -> 1 <= J inp ->
  objectivex internalForwardx internalBackward inp =
  Some {| objective := dbl_max;
          gradient := repeat (dopp dbl_max) (Z.to_nat (grad_len inp)) |}.
Proof.
  intros Hfin HP Hlen HJ. unfold objectivex.
  rewrite (guard_true (proj2 (Nat.leb_le _ _) HP)). cbn [bind].
  rewrite (guard_true (proj2 (Z.leb_le _ _) Hlen)). cbn [bind].
  rewrite (guard_true (proj2 (Nat.leb_le _ _) HJ)). cbn [bind].
  rewrite Hfin. cbn [negb]. do 2 f_equal.
  induction (Z.to_nat (grad_len inp)) as [|n IH]; simpl; [reflexivity|].
  rewrite IH. reflexivity.
Qed.

Lemma run_length (res : Output) :
  objectivex internalForwardx internalBackward inp = Some res ->
  Z.of_nat (length (gradient res)) = grad_len inp /\ 1 <= J inp.
Proof.
  intros H. unfold objectivex in H.
  apply bind_Some in H. destruct H as ([] & _ & H).
  inv_bind H. apply guard_Some, Z.leb_le in Hx.
  inv_bind H. apply guard_Some, Nat.leb_le in Hx0.
  split; [| exact Hx0].
  destruct (lweights_finite inp); simpl in H.
  - inv_bind H. rename x1 into cols.
    inv_bind H. inv_bind H. inv_bind H. inv_bind H. injection H as <-. simpl.
    assert (Hc : (fun st => st1 <- passA internalForwardx internalBackward inp cols st ;;
                            st2 <- passB internalForwardx internalBackward inp cols st1 ;;
                            passI internalForwardx internalBackward inp cols st2)
                   (repeat d0 (Z.to_nat (grad_len inp)), 0) = Some x3).
    { simpl. rewrite Hx2. simpl. rewrite Hx3. simpl. exact Hx4. }
    apply (assembles_seq (passA_assembles inp cols)
             (assembles_seq (passB_assembles inp cols) (passI_assembles inp cols))) in Hc;
      [| lia].
    destruct Hc as [Hl ->].
    apply passX_length in Hx5. simpl in Hx5.
    rewrite length_map, Hx5, length_write, repeat_length by exact Hl. lia.
  - injection H as <-. simpl. rewrite length_map, repeat_length. lia.
Qed.

Lemma run_finite (res : Output) :
  objectivex internalForwardx internalBackward inp = Some res ->
  lweights_finite inp = true ->
  masks_wf inp = true ->
  exists cols,
    initk_cols inp = Some cols /\
    objective res = neg_loglik internalForwardx inp cols /\
    gradient res =
      map dopp (segA internalForwardx internalBackward inp cols
                ++ segB internalForwardx internalBackward inp cols
                ++ segI internalForwardx internalBackward inp cols
                ++ segX internalForwardx internalBackward inp cols).
Proof.
  intros H Hfin Hwf. unfold objectivex in H.
  apply bind_Some in H. destruct H as ([] & _ & H).
  inv_bind H. clear Hx. inv_bind H. apply guard_Some, Nat.leb_le in Hx.
  rewrite Hfin in H. simpl in H.
  inv_bind H. rename x1 into cols. exists cols. split; [exact Hx0|].
  inv_bind H. inv_bind H. inv_bind H. inv_bind H. injection H as <-. simpl.
  split; [reflexivity|]. f_equal.
  rewrite (grad_len_wf Hwf Hx), Nat2Z.id in Hx1.
  set (n := nnz (ANZ_mem inp) + nnz (BNZ_mem inp) + nnz (INZ_mem inp)
            + (J inp - 1) * q inp) in *.
  assert (Hc : (fun st => st1 <- passA internalForwardx internalBackward inp cols st ;;
                          st2 <- passB internalForwardx internalBackward inp cols st1 ;;
                          passI internalForwardx internalBackward inp cols st2)
                 (repeat d0 n, 0) = Some x3).
  { simpl. rewrite Hx1. simpl. rewrite Hx2. simpl. exact Hx3. }
  apply (assembles_seq (passA_assembles inp cols)
           (assembles_seq (passB_assembles inp cols) (passI_assembles inp cols))) in Hc;
    [| lia].
  destruct Hc as [Hl ->]. clear Hx1 Hx2 Hx3.
  rewrite repeat_length in Hl. simpl in Hl, Hx4.
  rewrite write_zeros in Hx4.
  set (pre := segA _ _ inp cols ++ segB _ _ inp cols ++ segI _ _ inp cols) in *.
  assert (Hpre : length pre = nnz (ANZ_mem inp) + nnz (BNZ_mem inp) + nnz (INZ_mem inp)).
  { unfold pre. rewrite !length_app, length_segA, length_segB, length_segI by exact Hwf. lia. }
  replace (n - length pre) with ((J inp - 1) * q inp) in Hx4 by lia.
  unfold passX in Hx4.
  rewrite <- (app_nil_r (repeat d0 _)) in Hx4.
  apply passX_zeros in Hx4; [| lia | simpl; lia].
  rewrite Hx4. simpl. rewrite app_nil_r. unfold pre, segX.
  rewrite <- !app_assoc. reflexivity.
Qed.

Lemma run_total :
  well_formed inp = true -> lweights_finite inp = true ->
  exists res, objectivex internalForwardx internalBackward inp = Some res.
Proof.
  unfold well_formed. intros Hwf Hfin.
  apply andb_prop in Hwf. destruct Hwf as [Hm Hs].
  destruct (masks_wf_spec inp Hm) as (_ & _ & _ & HM & _).
  destruct (shapes_wf_spec inp Hs) as (HJ & Hq & HP & _).
  destruct (initk_cols_total HM) as (cols & Hcols).
  unfold objectivex. rewrite (grad_len_wf Hm HJ), Nat2Z.id.
  rewrite (guard_true (proj2 (Nat.leb_le _ _) HP)). cbn [bind].
  rewrite guard_true by (apply Z.leb_le, Nat2Z.is_nonneg). cbn [bind].
  rewrite (guard_true (proj2 (Nat.leb_le _ _) HJ)). cbn [bind].
  rewrite Hfin, Hcols. cbn [negb bind].
  set (m := (J inp - 1) * q inp).
  set (n := nnz (ANZ_mem inp) + nnz (BNZ_mem inp) + nnz (INZ_mem inp) + m).
  pose proof (assembles_tot_seq (passA_tot inp cols Hm)
               (assembles_tot_seq (passB_tot inp cols Hm Hs) (passI_tot inp cols Hm Hs))
               (repeat d0 n) 0) as Hc.
  rewrite !length_app, length_segA, length_segB, length_segI, repeat_length in Hc
    by exact Hm.
  specialize (Hc ltac:(unfold n; lia)). cbn beta in Hc.
  destruct (passA _ _ inp cols (repeat d0 n, 0)) as [st1|]; [| discriminate].
  cbn [bind] in Hc |- *.
  destruct (passB _ _ inp cols st1) as [st2|]; [| discriminate].
  cbn [bind] in Hc |- *. rewrite Hc. cbn [bind].
  destruct (@passX_tot inp cols
              (write (repeat d0 n) 0
                 (segA internalForwardx internalBackward inp cols
                  ++ segB internalForwardx internalBackward inp cols
                  ++ segI internalForwardx internalBackward inp cols))
              (0 + (nnz (ANZ_mem inp) + (nnz (BNZ_mem inp) + nnz (INZ_mem inp)))) Hq)
    as (st4 & ->).
  - rewrite length_write.
    + rewrite repeat_length. fold m. unfold n. lia.
    + rewrite repeat_length, !length_app, length_segA, length_segB, length_segI
        by exact Hm. unfold n. lia.
  - cbn [bind]. eauto.
Qed.

Lemma lweights_finite_spec :
  lweights_finite inp = true <->
  (forall j k, j < J inp -> k < oK inp -> is_finite (expXcoef inp j k) = true).
Proof.
  unfold lweights_finite. split.
  - intros H j k Hj Hk. exact (@forallb_seq _ _ (@forallb_seq _ _ H k Hk) j Hj).
  - intros H. apply forallb_forall. intros k Hk. apply in_seq in Hk.
    apply forallb_forall. intros j Hj. apply in_seq in Hj. apply H; lia.
Qed.

End RunFacts.

(** ** Where each row lies in the gradient *)

Lemma concat_locate {B} (f : nat -> list B) (n i : nat) :
  i < n ->
  exists pre post,
    concat (map f (seq 0 n)) = pre ++ f i ++ post /\
    length pre = nsum i (fun i' => length (f i')).
Proof.
  intros Hi.
  exists (concat (map f (seq 0 i))), (concat (map f (seq (S i) (n - S i)))).
  split.
  - replace n with (i + S (n - S i)) at 1 by lia.
    rewrite seq_app, map_app, concat_app. reflexivity.
  - rewrite length_concat_map. reflexivity.
Qed.

Lemma segment_locate {B} (g pre x post : list B) :
  g = pre ++ x ++ post -> firstn (length x) (skipn (length pre) g) = x.
Proof.
  intros ->. rewrite skipn_app, Nat.sub_diag, skipn_all. simpl.
  rewrite firstn_app, Nat.sub_diag, firstn_all. simpl. apply app_nil_r.
Qed.

Section Segments.

Variable inp : Input (D := D).
Variable res : Output (D := D).
Variable cols : list (list D).
Hypothesis Hrun : objectivex internalForwardx internalBackward inp = Some res.
Hypothesis Hcols : initk_cols inp = Some cols.
Hypothesis Hfin : lweights_finite inp = true.
Hypothesis Hwf : masks_wf inp = true.

Lemma gradient_segments :
  gradient res =
    map dopp (segA internalForwardx internalBackward inp cols
              ++ segB internalForwardx internalBackward inp cols
              ++ segI internalForwardx internalBackward inp cols
              ++ segX internalForwardx internalBackward inp cols).
Proof.
  destruct (run_finite inp Hrun Hfin Hwf) as (cols' & Hc & _ & Hg).
  rewrite Hcols in Hc. injection Hc as <-. exact Hg.
Qed.

Lemma segA_concat :
  segA internalForwardx internalBackward inp cols =
  concat (map (fun jj => concat (map (valsA internalForwardx internalBackward inp cols jj)
                                     (seq 0 (nS inp jj)))) (seq 0 (J inp))).
Proof.
  pose proof (length_segA inp cols Hwf) as Hl.
  pose proof (count_A inp Hwf) as Hc.
  unfold segA in *. destruct (0 <? accu (ANZ_mem inp))%Z; [reflexivity|].
  simpl in Hl. symmetry. apply length_zero_iff_nil.
  rewrite length_concat_map. rewrite <- Hl in Hc.
  etransitivity; [| exact Hc]. unfold nsum. f_equal.
  apply map_ext. intros jj. rewrite length_concat_map. f_equal.
  apply map_ext. intros i. apply length_map.
Qed.

Lemma segB_concat :
  segB internalForwardx internalBackward inp cols =
  concat (map (fun r => concat (map (valsB internalForwardx internalBackward inp cols r)
                                    (seq 0 (eM inp)))) (seq 0 (oR inp))).
Proof.
  pose proof (length_segB inp cols Hwf) as Hl.
  pose proof (count_B inp Hwf) as Hc.
  unfold segB in *. destruct (0 <? accu (BNZ_mem inp))%Z; [reflexivity|].
  simpl in Hl. symmetry. apply length_zero_iff_nil.
  rewrite length_concat_map. rewrite <- Hl in Hc.
  etransitivity; [| exact Hc]. unfold nsum. f_equal.
  apply map_ext. intros r. rewrite length_concat_map. f_equal.
  apply map_ext. intros i. apply length_map.
Qed.

Lemma segI_concat :
  segI internalForwardx internalBackward inp cols =
  concat (map (valsI internalForwardx internalBackward inp cols) (seq 0 (J inp))).
Proof.
  pose proof (length_segI inp cols Hwf) as Hl.
  pose proof (count_I inp Hwf) as Hc.
  unfold segI in *. destruct (0 <? accu (INZ_mem inp))%Z; [reflexivity|].
  simpl in Hl. symmetry. apply length_zero_iff_nil.
  rewrite length_concat_map. rewrite <- Hl in Hc.
  etransitivity; [| exact Hc]. unfold nsum. f_equal.
  apply map_ext. intros i. apply length_map.
Qed.

Lemma segment_A (jj i : nat) :
  jj < J inp -> i < nS inp jj ->
  firstn (length (indA inp jj i)) (skipn (offA inp jj i) (gradient res)) =
  map dopp (valsA internalForwardx internalBackward inp cols jj i).
Proof.
  intros Hjj Hi.
  destruct (concat_locate
              (fun jj => concat (map (valsA internalForwardx internalBackward inp cols jj)
                                     (seq 0 (nS inp jj)))) Hjj)
    as (p1 & q1 & E1 & L1).
  destruct (concat_locate (valsA internalForwardx internalBackward inp cols jj) Hi)
    as (p2 & q2 & E2 & L2).
  assert (Ho : offA inp jj i = length (map dopp (p1 ++ p2))).
  { rewrite length_map, length_app, L1, L2. unfold offA. f_equal.
    - apply nsum_ext. intros jj' _. rewrite length_concat_map. unfold nsum. f_equal.
      apply map_ext. intros i'. unfold valsA, valsB, valsI; rewrite length_map; reflexivity.
    - apply nsum_ext. intros i' _. unfold valsA, valsB, valsI; rewrite length_map; reflexivity. }
  assert (Hn : length (indA inp jj i) =
               length (map dopp (valsA internalForwardx internalBackward inp cols jj i)))
    by (unfold valsA; rewrite !length_map; reflexivity).
  rewrite Ho, Hn.
  apply segment_locate with
    (post := map dopp (q2 ++ q1 ++ segB internalForwardx internalBackward inp cols
                       ++ segI internalForwardx internalBackward inp cols
                       ++ segX internalForwardx internalBackward inp cols)).
  rewrite gradient_segments, segA_concat, E1, E2, <- !map_app.
  f_equal. rewrite <- !app_assoc. reflexivity.
Qed.

Lemma segment_B (r i : nat) :
  r < oR inp -> i < eM inp ->
  firstn (length (indB inp r i)) (skipn (offB inp r i) (gradient res)) =
  map dopp (valsB internalForwardx internalBackward inp cols r i).
Proof.
  intros Hr Hi.
  destruct (concat_locate
              (fun r => concat (map (valsB internalForwardx internalBackward inp cols r)
                                    (seq 0 (eM inp)))) Hr)
    as (p1 & q1 & E1 & L1).
  destruct (concat_locate (valsB internalForwardx internalBackward inp cols r) Hi)
    as (p2 & q2 & E2 & L2).
  assert (Ho : offB inp r i =
               length (map dopp (segA internalForwardx internalBackward inp cols
                                 ++ p1 ++ p2))).
  { rewrite length_map, !length_app, L1, L2, length_segA by exact Hwf.
    unfold offB. rewrite <- Nat.add_assoc. f_equal. f_equal.
    - apply nsum_ext. intros r' _. rewrite length_concat_map. unfold nsum. f_equal.
      apply map_ext. intros i'. unfold valsA, valsB, valsI; rewrite length_map; reflexivity.
    - apply nsum_ext. intros i' _. unfold valsA, valsB, valsI; rewrite length_map; reflexivity. }
  assert (Hn : length (indB inp r i) =
               length (map dopp (valsB internalForwardx internalBackward inp cols r i)))
    by (unfold valsB; rewrite !length_map; reflexivity).
  rewrite Ho, Hn.
  apply segment_locate with
    (post := map dopp (q2 ++ q1 ++ segI internalForwardx internalBackward inp cols
                       ++ segX internalForwardx internalBackward inp cols)).
  rewrite gradient_segments, segB_concat, E1, E2, <- !map_app.
  f_equal. rewrite <- !app_assoc. reflexivity.
Qed.

Lemma segment_I (i : nat) :
  i < J inp ->
  firstn (length (indI inp i)) (skipn (offI inp i) (gradient res)) =
  map dopp (valsI internalForwardx internalBackward inp cols i).
Proof.
  intros Hi.
  destruct (concat_locate (valsI internalForwardx internalBackward inp cols) Hi)
    as (p1 & q1 & E1 & L1).
  assert (Ho : offI inp i =
               length (map dopp (segA internalForwardx internalBackward inp cols
                                 ++ segB internalForwardx internalBackward inp cols
                                 ++ p1))).
  { rewrite length_map, !length_app, L1, length_segA, length_segB by exact Hwf.
    unfold offI. rewrite <- Nat.add_assoc. f_equal. f_equal.
    apply nsum_ext. intros i' _. unfold valsA, valsB, valsI; rewrite length_map; reflexivity. }
  assert (Hn : length (indI inp i) =
               length (map dopp (valsI internalForwardx internalBackward inp cols i)))
    by (unfold valsI; rewrite !length_map; reflexivity).
  rewrite Ho, Hn.
  apply segment_locate with
    (post := map dopp (q1 ++ segX internalForwardx internalBackward inp cols)).
  rewrite gradient_segments, segI_concat, E1, <- !map_app.
  f_equal. rewrite <- !app_assoc. reflexivity.
Qed.

Lemma segment_X (jj : nat) :
  1 <= jj -> jj < J inp ->
  firstn (q inp) (skipn (offX inp jj) (gradient res)) =
  map dopp (rowX internalForwardx internalBackward inp cols jj).
Proof.
  intros H1 Hjj.
  assert (Hjj' : jj - 1 < J inp - 1) by lia.
  destruct (concat_locate
              (fun x => rowX internalForwardx internalBackward inp cols (S x)) Hjj')
    as (p1 & q1 & E1 & L1).
  replace (S (jj - 1)) with jj in E1 by lia.
  assert (Ho : offX inp jj =
               length (map dopp (segA internalForwardx internalBackward inp cols
                                 ++ segB internalForwardx internalBackward inp cols
                                 ++ segI internalForwardx internalBackward inp cols
                                 ++ p1))).
  { rewrite length_map, !length_app, L1, length_segA, length_segB, length_segI
      by exact Hwf.
    unfold offX. rewrite <- !Nat.add_assoc. do 3 f_equal.
    rewrite (@nsum_ext (jj - 1) _ (fun _ => q inp)) by (intros; apply length_rowX).
    generalize (jj - 1) as m. clear. intros m.
    induction m as [|m IH]; [rewrite Nat.mul_0_r; reflexivity|].
    rewrite nsum_S_r, Nat.mul_succ_r. lia. }
  assert (Hn : q inp =
               length (map dopp (rowX internalForwardx internalBackward inp cols jj)))
    by (rewrite length_map, length_rowX; reflexivity).
  rewrite Hn at 1. rewrite Ho.
  apply segment_locate with (post := map dopp q1).
  rewrite gradient_segments, <- !map_app. f_equal.
  unfold segX. rewrite <- seq_shift, map_map, E1, <- !app_assoc. reflexivity.
Qed.

End Segments.

(** ** Exact arithmetic: the segments are the sums of the specification *)

Section ExactRing.

Hypothesis Dring : ring_theory d0 d1 dadd dmul dsub dopp (@eq D).

Add Ring DRing : Dring.

Lemma jacobian_simplex (p : nat -> D) (a b : nat) :
  jacobian p a b = simplex_jacobian p a b.
Proof.
  unfold jacobian, simplex_jacobian. destruct (a =? b); ring.
Qed.

Lemma fold_add_acc {A} (f : A -> D) (l : list A) (a : D) :
  fold_left (fun acc x => dadd acc (f x)) l a =
  dadd a (fold_left (fun acc x => dadd acc (f x)) l d0).
Proof.
  revert a. induction l as [|x l IH]; intros a; simpl.
  - ring.
  - rewrite IH, (IH (dadd d0 (f x))). ring.
Qed.

Lemma fold2_dsum (K T : nat) (f : nat -> nat -> D) :
  fold_left (fun acc k => fold_left (fun acc t => dadd acc (f k t)) (seq 0 T) acc)
            (seq 0 K) d0 =
  dsum K (fun k => dsum T (f k)).
Proof.
  unfold dsum. generalize (d0 (D := D)) at 1 3 as a. generalize (seq 0 K) as l.
  induction l as [|k l IH]; intros a; simpl; [reflexivity|].
  rewrite IH. f_equal. apply fold_add_acc.
Qed.

Lemma fold_cond {A} (c : A -> bool) (f : A -> D) (l : list A) (a : D) :
  fold_left (fun acc x => if c x then dadd acc (f x) else acc) l a =
  fold_left (fun acc x => dadd acc (if c x then f x else d0)) l a.
Proof.
  apply fold_left_ext_in. intros acc x _. destruct (c x); ring.
Qed.

Section Rows.

Variable inp : Input (D := D).
Variable cols : list (list D).

Lemma emis_all_spec (st k t : nat) : emis_all inp st k t = spec_emis inp st k t.
Proof. reflexivity. Qed.

Lemma emis_other_spec (r st k t : nat) :
  emis_other inp r st k t = spec_emis_other inp r st k t.
Proof.
  unfold emis_other, spec_emis_other, dprod, loop.
  apply fold_left_ext_in. intros acc r2 _. destruct (r2 =? r); simpl; ring.
Qed.

Lemma spec_row_vals (n : nat) (p raw : nat -> D) (v : list D) (ind : list nat) :
  (forall a, In a ind -> a < n) ->
  (forall b, b < n -> nth b v d0 = raw b) ->
  map (fun a => nth a (matvec n (jacobian p) v) d0) ind = spec_row n p raw ind.
Proof.
  intros Hind Hv. unfold spec_row, matvec. apply map_ext_in. intros a Ha.
  rewrite nth_map_seq by (apply Hind, Ha).
  apply dsum_ext. intros b Hb. rewrite jacobian_simplex, Hv by exact Hb. reflexivity.
Qed.

Lemma valsA_spec (jj i : nat) :
  valsA internalForwardx internalBackward inp cols jj i =
  spec_segA internalForwardx internalBackward inp cols jj i.
Proof.
  unfold valsA, spec_segA. apply spec_row_vals.
  - intros a Ha. unfold indA in Ha. apply In_find_map in Ha. apply Ha.
  - intros b Hb. rewrite gradArow_nth by exact Hb. apply fold2_dsum.
Qed.

Lemma valsB_spec (r i : nat) :
  (forall a, In a (indB inp r i) -> a < nSym inp r) ->
  valsB internalForwardx internalBackward inp cols r i =
  spec_segB internalForwardx internalBackward inp cols r i.
Proof.
  intros Hind. unfold valsB, spec_segB. apply spec_row_vals; [exact Hind|].
  intros b Hb. rewrite gradBrow_nth by exact Hb.
  unfold spec_rawB, dsum at 1. apply fold_left_ext_in. intros acc k _.
  rewrite fold_cond, fold_add_acc. unfold termB0, termB, dsum.
  rewrite !emis_other_spec.
  erewrite (fold_left_ext_in _
    (fun acc0 t => dadd acc0
       (if obs inp k (t + 1) r =? b
        then ddiv (dmul (dmul (fold_left (fun acc1 s =>
                                  dadd acc1 (dmul (alpha internalForwardx inp cols s t k)
                                                  (transition inp s i)))
                                 (seq 0 (eM inp)) d0)
                              (spec_emis_other inp r i k (t + 1)))
                        (beta internalForwardx internalBackward inp cols i (t + 1) k))
                  (scales internalForwardx inp cols (t + 1) k)
        else d0))).
  - destruct (obs inp k 0 r =? b); ring.
  - intros acc0 t _. rewrite emis_other_spec. reflexivity.
Qed.

Lemma valsI_spec (i : nat) :
  valsI internalForwardx internalBackward inp cols i =
  spec_segI internalForwardx internalBackward inp cols i.
Proof.
  unfold valsI, spec_segI. apply spec_row_vals.
  - intros a Ha. unfold indI in Ha. apply In_find_map in Ha. apply Ha.
  - intros b Hb. rewrite gradIrow_nth by exact Hb. reflexivity.
Qed.

Lemma rowX_spec (jj : nat) :
  rowX internalForwardx internalBackward inp cols jj =
  spec_segX internalForwardx internalBackward inp cols jj.
Proof.
  apply nth_ext with (d := d0) (d' := d0).
  - rewrite length_rowX. unfold spec_segX. rewrite length_map, length_seq. reflexivity.
  - rewrite length_rowX. intros c Hc. rewrite rowX_nth by exact Hc.
    unfold spec_segX. rewrite nth_map_seq by exact Hc.
    rewrite <- fold2_dsum.
    apply fold_left_ext_in. intros acc k _.
    apply fold_left_ext_in. intros acc0 j _.
    unfold termX, in_block. rewrite emis_all_spec.
    destruct ((base inp jj <=? j) && (j <? cumsumstate inp jj)); ring.
Qed.

End Rows.

(** C4: in exact arithmetic, the entries the transition pass writes for
    source state [i] of block [jj] are, negated, the simplex Jacobian of the
    block-restricted transition row applied to the raw sums over subjects
    and over the time steps with a successor, restricted to the positions
    where the mask is nonzero in that block row; they start at the offset
    reached by the rows before. *)
Theorem transition_segment (inp : Input) (res : Output) (cols : list (list D))
        (jj i : nat) :
  objectivex internalForwardx internalBackward inp = Some res ->
  initk_cols inp = Some cols ->
  lweights_finite inp = true ->
  masks_wf inp = true ->
  jj < J inp -> i < nS inp jj ->
  firstn (length (indA inp jj i)) (skipn (offA inp jj i) (gradient res)) =
    map dopp (spec_segA internalForwardx internalBackward inp cols jj i) /\
  (forall a, In a (indA inp jj i) <->
             a < nS inp jj /\ ANZ inp (base inp jj + i) (base inp jj + a) <> 0%Z).
Proof.
  intros Hrun Hcols Hfin Hwf Hjj Hi. split.
  - rewrite (@segment_A inp res cols Hrun Hcols Hfin Hwf jj i Hjj Hi). f_equal. apply valsA_spec.
  - intros a. unfold indA.
    apply (In_find_map (nS inp jj) (fun j => ANZ inp (base inp jj + i) (base inp jj + j)) a).
Qed.

(** C5: in exact arithmetic, the entries the emission pass writes for
    channel [r] and state [i] are, negated, the simplex Jacobian of the
    emission row of the state applied to the raw sums per symbol (the
    time-0 term with the initial vector, the later terms with the
    predicted state probability), restricted to the positions where the
    mask row is nonzero; they start at the offset reached by the rows
    before. *)
Theorem emission_segment (inp : Input) (res : Output) (cols : list (list D))
        (r i : nat) :
  objectivex internalForwardx internalBackward inp = Some res ->
  initk_cols inp = Some cols ->
  lweights_finite inp = true ->
  masks_wf inp = true ->
  r < oR inp -> i < eM inp ->
  firstn (length (indB inp r i)) (skipn (offB inp r i) (gradient res)) =
    map dopp (spec_segB internalForwardx internalBackward inp cols r i) /\
  (forall a, In a (indB inp r i) <-> a < eP inp - 1 /\ BNZ inp i a r <> 0%Z).
Proof.
  intros Hrun Hcols Hfin Hwf Hr Hi. split.
  - rewrite (@segment_B inp res cols Hrun Hcols Hfin Hwf r i Hr Hi). f_equal. apply valsB_spec.
    destruct (masks_wf_spec inp Hwf) as (_ & _ & _ & _ & HR & _ & HB).
    intros a Ha. unfold indB in Ha. apply In_find_map in Ha. destruct Ha as [Ha1 Ha2].
    destruct (Nat.lt_ge_cases a (nSym inp r)) as [Hlt|Hge]; [exact Hlt|].
    exfalso. apply Ha2. apply HB; auto. rewrite <- HR. exact Hr.
  - intros a. unfold indB.
    apply (In_find_map (eP inp - 1) (fun v => BNZ inp i v r) a).
Qed.

(** C6: in exact arithmetic, the entries the initial pass writes for block
    [i] are, negated, the simplex Jacobian of the block's slice of the
    initial distribution applied to the raw sums over subjects, weighted by
    the mixture weight of the block, restricted to the positions where the
    mask is nonzero in the slice; they start at the offset reached by the
    blocks before. *)
Theorem initial_segment (inp : Input) (res : Output) (cols : list (list D)) (i : nat) :
  objectivex internalForwardx internalBackward inp = Some res ->
  initk_cols inp = Some cols ->
  lweights_finite inp = true ->
  masks_wf inp = true ->
  i < J inp ->
  firstn (length (indI inp i)) (skipn (offI inp i) (gradient res)) =
    map dopp (spec_segI internalForwardx internalBackward inp cols i) /\
  (forall a, In a (indI inp i) <-> a < nS inp i /\ INZ inp (base inp i + a) <> 0%Z).
Proof.
  intros Hrun Hcols Hfin Hwf Hi. split.
  - rewrite (@segment_I inp res cols Hrun Hcols Hfin Hwf i Hi). f_equal. apply valsI_spec.
  - intros a. unfold indI.
    apply (In_find_map (nS inp i) (fun j => INZ inp (base inp i + j)) a).
Qed.

(** C7: in exact arithmetic, the [q] entries of block [jj >= 1] are,
    negated, the sums over subjects and over all states of the time-0
    statistic times the covariate row, with factor [1 - lweights] for the
    states of the block and [- lweights] for the others; the blocks
    [1 .. J-1] fill the last [(J - 1) * q] positions in order. *)
Theorem mixture_segment (inp : Input) (res : Output) (cols : list (list D)) (jj : nat) :
  objectivex internalForwardx internalBackward inp = Some res ->
  initk_cols inp = Some cols ->
  lweights_finite inp = true ->
  masks_wf inp = true ->
  1 <= jj -> jj < J inp ->
  firstn (q inp) (skipn (offX inp jj) (gradient res)) =
    map dopp (spec_segX internalForwardx internalBackward inp cols jj) /\
  offX inp jj + q inp * (J inp - jj) = length (gradient res).
Proof.
  intros Hrun Hcols Hfin Hwf H1 Hjj. split.
  - rewrite (@segment_X inp res cols Hrun Hcols Hfin Hwf jj H1 Hjj). f_equal. apply rowX_spec.
  - destruct (run_length inp Hrun) as [Hl HJ].
    rewrite (grad_len_wf inp Hwf HJ) in Hl. apply Nat2Z.inj in Hl.
    rewrite Hl. unfold offX. rewrite <- Nat.add_assoc. f_equal.
    rewrite <- Nat.mul_add_distr_l, Nat.mul_comm. f_equal. lia.
Qed.

(** ** Exact ordered arithmetic: the mixture weights *)

Section ExactField.

Variables dlt dle : D -> D -> Prop.

Hypothesis div_mul : forall a b, ddiv a b = dmul a (ddiv d1 b).
Hypothesis div_same : forall a, a <> d0 -> ddiv a a = d1.
Hypothesis exp_pos : forall x, dlt d0 (dexp x).
Hypothesis lt_le : forall a, dlt d0 a -> dle d0 a.
Hypothesis le_refl0 : dle d0 d0.
Hypothesis add_pos : forall a b, dle d0 a -> dlt d0 b -> dlt d0 (dadd a b).
Hypothesis div_pos : forall a b, dlt d0 a -> dlt d0 b -> dlt d0 (ddiv a b).
Hypothesis lt_neq : forall a, dlt d0 a -> a <> d0.




End ExactField.

(** ** Further properties in exact arithmetic *)

Lemma dsum_S (n : nat) (f : nat -> D) : dsum (S n) f = dadd (dsum n f) (f n).
Proof. unfold dsum. rewrite seq_S, fold_left_app. reflexivity. Qed.

Lemma dsum_zero (n : nat) (f : nat -> D) :
  (forall i, i < n -> f i = d0) -> dsum n f = d0.
Proof.
  induction n as [|n IH]; intros H; [reflexivity|].
  rewrite dsum_S, IH, H by auto. ring.
Qed.

Lemma dsum_sub (n : nat) (f g : nat -> D) :
  dsum n (fun i => dsub (f i) (g i)) = dsub (dsum n f) (dsum n g).
Proof.
  induction n as [|n IH]; [unfold dsum; simpl; ring|].
  rewrite !dsum_S, IH. ring.
Qed.

Lemma dsum_scale_l (n : nat) (c : D) (f : nat -> D) :
  dsum n (fun i => dmul c (f i)) = dmul c (dsum n f).
Proof.
  induction n as [|n IH]; [unfold dsum; simpl; ring|].
  rewrite !dsum_S, IH. ring.
Qed.

Lemma dsum_scale_r (n : nat) (f : nat -> D) (c : D) :
  dsum n (fun i => dmul (f i) c) = dmul (dsum n f) c.
Proof.
  induction n as [|n IH]; [unfold dsum; simpl; ring|].
  rewrite !dsum_S, IH. ring.
Qed.

Lemma dsum_delta (n a : nat) (g : nat -> D) :
  a < n -> dsum n (fun b => if a =? b then g b else d0) = g a.
Proof.
  induction n as [|n IH]; intros Ha; [lia|].
  rewrite dsum_S. destruct (Nat.eq_dec a n) as [->|Hne].
  - rewrite Nat.eqb_refl, dsum_zero; [ring|].
    intros i Hi. destruct (Nat.eqb_spec n i); [lia | reflexivity].
  - rewrite IH by lia. destruct (Nat.eqb_spec a n); [contradiction | ring].
Qed.

(** X5: the product of lines 80, 123 and 149 sums to zero over a whole row:
    when the probabilities [p] of the row add up to one, the entries of
    [G * v], with [G] the matrix built from [p] at lines 65-67, add up to
    zero whatever the raw vector [v] is. *)
Theorem jacobian_product_sums_to_zero (n : nat) (p : nat -> D) (v : list D) :
  dsum n p = d1 ->
  dsum n (fun a => nth a (matvec n (jacobian p) v) d0) = d0.
Proof.
  intros Hp.
  set (T := dsum n (fun b => dmul (p b) (nth b v d0))).
  assert (Hrow : forall a, a < n ->
            nth a (matvec n (jacobian p) v) d0 =
            dsub (dmul (p a) (nth a v d0)) (dmul (p a) T)).
  { intros a Ha. unfold matvec. rewrite nth_map_seq by exact Ha.
    rewrite (@dsum_ext n _ (fun b =>
               dsub (if a =? b then dmul (p b) (nth b v d0) else d0)
                    (dmul (p a) (dmul (p b) (nth b v d0))))).
    - rewrite dsum_sub, dsum_delta, dsum_scale_l by exact Ha. reflexivity.
    - intros b _. unfold jacobian. destruct (Nat.eqb_spec a b) as [->|_]; ring. }
  rewrite (@dsum_ext n _ (fun a => dsub (dmul (p a) (nth a v d0)) (dmul (p a) T)))
    by exact Hrow.
  rewrite dsum_sub, dsum_scale_r, Hp. fold T. ring.
Qed.

Lemma matvec_zero (n : nat) (G : nat -> nat -> D) (v : list D) (a : nat) :
  (forall b, b < n -> nth b v d0 = d0) -> nth a (matvec n G v) d0 = d0.
Proof.
  intros Hv. destruct (Nat.lt_ge_cases a n) as [Ha|Ha].
  - unfold matvec. rewrite nth_map_seq by exact Ha.
    apply dsum_zero. intros b Hb. rewrite Hv by exact Hb. ring.
  - apply nth_overflow. unfold matvec. rewrite length_map, length_seq. exact Ha.
Qed.

Lemma Forall_concat_map {A B} (P : B -> Prop) (f : A -> list B) (l : list A) :
  (forall x, Forall P (f x)) -> Forall P (concat (map f l)).
Proof.
  intros H. induction l as [|x l IH]; simpl; [constructor|].
  apply Forall_app. split; [apply H | exact IH].
Qed.

Lemma Forall_map_const {A} (c : D) (f : A -> D) (l : list A) :
  (forall x, f x = c) -> Forall (fun y => y = c) (map f l).
Proof.
  intros H. induction l as [|x l IH]; simpl; constructor; auto.
Qed.

Lemma Forall_part (P : D -> Prop) (l : list D) (n : nat) :
  Forall P l -> Forall P (firstn n l) /\ Forall P (skipn n l).
Proof.
  intros H. rewrite <- (firstn_skipn n l) in H. apply Forall_app in H. exact H.
Qed.

Lemma Forall_write (P : D -> Prop) (grad vals : list D) (cg : nat) :
  Forall P grad -> Forall P vals -> Forall P (write grad cg vals).
Proof.
  intros Hg Hv. unfold write. apply Forall_app. split; [apply Forall_part, Hg|].
  apply Forall_app. split; [exact Hv | apply Forall_part, Hg].
Qed.

Lemma passX_no_subject (inp : Input) (cols : list (list D)) (st : list D * nat) :
  oK inp = 0 -> passX internalForwardx internalBackward inp cols st = Some st.
Proof.
  intros HK. unfold passX. rewrite HK.
  induction (seq 1 (J inp - 1)) as [|jj l IH]; simpl; [reflexivity | exact IH].
Qed.

Lemma segments_no_subject (inp : Input) (cols : list (list D)) :
  oK inp = 0 ->
  Forall (fun x : D => x = d0)
    (segA internalForwardx internalBackward inp cols
     ++ segB internalForwardx internalBackward inp cols
     ++ segI internalForwardx internalBackward inp cols).
Proof.
  intros HK. repeat (apply Forall_app; split).
  - unfold segA. destruct (0 <? accu (ANZ_mem inp))%Z; [| constructor].
    apply Forall_concat_map. intros jj. apply Forall_concat_map. intros i.
    unfold valsA. apply Forall_map_const. intros a. apply matvec_zero.
    intros b Hb. rewrite gradArow_nth by exact Hb. rewrite HK. reflexivity.
  - unfold segB. destruct (0 <? accu (BNZ_mem inp))%Z; [| constructor].
    apply Forall_concat_map. intros r. apply Forall_concat_map. intros i.
    unfold valsB. apply Forall_map_const. intros a. apply matvec_zero.
    intros b Hb. rewrite gradBrow_nth by exact Hb. rewrite HK. reflexivity.
  - unfold segI. destruct (0 <? accu (INZ_mem inp))%Z; [| constructor].
    apply Forall_concat_map. intros i.
    unfold valsI. apply Forall_map_const. intros a. apply matvec_zero.
    intros b Hb. rewrite gradIrow_nth by exact Hb. rewrite HK. reflexivity.
Qed.

(** X6: in exact arithmetic, with no subject (k = 0) every returning call,
    whatever its masks are, gives the objective zero and a gradient all of
    whose entries are zero: every sum over the subjects is empty, and the
    entries no pass writes keep the zero they were created with. *)
Theorem no_subject_gives_zero (inp : Input) (res : Output) :
  objectivex internalForwardx internalBackward inp = Some res ->
  oK inp = 0 ->
  objective res = d0 /\ Forall (fun x => x = d0) (gradient res).
Proof.
  intros H HK.
  assert (Hfin : lweights_finite inp = true)
    by (unfold lweights_finite; rewrite HK; reflexivity).
  unfold objectivex in H.
  apply bind_Some in H. destruct H as ([] & _ & H).
  inv_bind H. clear Hx. inv_bind H. clear Hx.
  rewrite Hfin in H. simpl in H.
  inv_bind H. rename x1 into cols.
  inv_bind H. inv_bind H. inv_bind H. inv_bind H. injection H as <-. simpl.
  split.
  - unfold neg_loglik. rewrite HK. unfold dsum. simpl. ring.
  - assert (Hc : (fun st => st1 <- passA internalForwardx internalBackward inp cols st ;;
                            st2 <- passB internalForwardx internalBackward inp cols st1 ;;
                            passI internalForwardx internalBackward inp cols st2)
                   (repeat d0 (Z.to_nat (grad_len inp)), 0) = Some x3).
    { simpl. rewrite Hx0. simpl. rewrite Hx1. simpl. exact Hx2. }
    apply (assembles_seq (passA_assembles inp cols)
             (assembles_seq (passB_assembles inp cols) (passI_assembles inp cols))) in Hc;
      [| lia].
    destruct Hc as [_ ->].
    rewrite passX_no_subject in Hx3 by exact HK. injection Hx3 as <-. simpl.
    assert (Hz : Forall (fun x : D => x = d0)
                   (write (repeat d0 (Z.to_nat (grad_len inp))) 0
                      (segA internalForwardx internalBackward inp cols
                       ++ segB internalForwardx internalBackward inp cols
                       ++ segI internalForwardx internalBackward inp cols))).
    { apply Forall_write; [| apply segments_no_subject, HK].
      apply Forall_forall. intros y Hy. apply repeat_spec in Hy. exact Hy. }
    clear Hx0 Hx1 Hx2.
    induction Hz as [|y l Hy Hz IH]; simpl; constructor; auto.
    rewrite Hy. ring.
Qed.

(** X7: in exact arithmetic, a covariate that is zero for every subject has a zero entry in the
    gradient of every block [jj >= 1]. *)
Theorem zero_covariate_zero_gradient (inp : Input) (res : Output)
        (cols : list (list D)) (jj c : nat) :
  objectivex internalForwardx internalBackward inp = Some res ->
  initk_cols inp = Some cols ->
  lweights_finite inp = true ->
  masks_wf inp = true ->
  1 <= jj -> jj < J inp -> c < q inp ->
  (forall k, k < oK inp -> X inp k c = d0) ->
  nth c (firstn (q inp) (skipn (offX inp jj) (gradient res))) d0 = d0.
Proof.
  intros Hrun Hcols Hfin Hwf H1 Hjj Hc HX.
  rewrite (@segment_X inp res cols Hrun Hcols Hfin Hwf jj H1 Hjj), rowX_spec.
  unfold spec_segX. rewrite map_map, nth_map_seq by exact Hc.
  rewrite dsum_zero; [ring|]. intros k Hk. apply dsum_zero. intros s _.
  rewrite (HX k Hk). ring.
Qed.

(** ** A single block *)

Section SingleBlock.

Hypothesis div_same : forall a, a <> d0 -> ddiv a a = d1.
Hypothesis exp_nonzero : forall x, dexp x <> d0.

Lemma lweights_single (inp : Input) (k : nat) :
  J inp = 1 -> lweights inp 0 k = d1.
Proof.
  intros HJ. unfold lweights. rewrite HJ. unfold dsum. simpl.
  replace (dadd d0 (expXcoef inp 0 k)) with (expXcoef inp 0 k) by ring.
  apply div_same, exp_nonzero.
Qed.

(** X8: with a single block (the degenerate case J = 1) every mixture weight
    is one, whatever the covariates and the coefficients are. *)
Theorem single_block_weight_is_one (inp : Input) (k : nat) :
  J inp = 1 -> lweights inp 0 k = d1.
Proof. apply lweights_single. Qed.

(** X9: with a single block the initial vector of every subject is the
    initial distribution itself. *)
Theorem single_block_initk_is_init (inp : Input) (cols : list (list D)) (k s : nat) :
  J inp = 1 ->
  initk_cols inp = Some cols ->
  k < oK inp -> s < eM inp ->
  initk cols s k = init inp s.
Proof.
  intros HJ Hc Hk Hs.
  destruct (initk_cols_spec inp Hc) as [_ Hcol].
  destruct (Hcol k Hk) as [HM Hnth]. clear Hcol.
  unfold initk. rewrite Hnth, nth_map_seq by exact Hs.
  pose proof (lweights_single inp k HJ) as Hw.
  rewrite HJ. unfold J in HJ. rewrite HM in Hs.
  destruct (numberOfStates inp) as [|n [|n' ns]]; try discriminate HJ.
  simpl in Hs |- *. rewrite app_nil_r.
  rewrite nth_repeat_lt by lia. rewrite Hw. ring.
Qed.

End SingleBlock.

End ExactRing.

(** ** The length and the layout of the gradient *)

(** C1, amended: a returned gradient has length
    [accu(ANZ) + accu(BNZ) + accu(INZ) + (J - 1) * q], the sum of the
    entries of the masks plus [(J - 1) * q]; for well-formed masks
    (indicators that vanish between different blocks and beyond the
    alphabet of a channel) this is the number of free transition, emission
    and initial entries plus [(J - 1) * q], also when [J = 1], and on the
    regular path the vector is the negated concatenation of the transition,
    emission, initial and mixture-coefficient segments, in this order and
    with these lengths. *)
Theorem gradient_length_and_layout (inp : Input) (res : Output) :
  objectivex internalForwardx internalBackward inp = Some res ->
  Z.of_nat (length (gradient res)) = grad_len inp /\
  (masks_wf inp = true ->
   length (gradient res) =
     nnz (ANZ_mem inp) + nnz (BNZ_mem inp) + nnz (INZ_mem inp) + (J inp - 1) * q inp /\
   (J inp = 1 ->
    length (gradient res) = nnz (ANZ_mem inp) + nnz (BNZ_mem inp) + nnz (INZ_mem inp)) /\
   (lweights_finite inp = true ->
    exists cols,
      initk_cols inp = Some cols /\
      gradient res =
        map dopp (segA internalForwardx internalBackward inp cols)
        ++ map dopp (segB internalForwardx internalBackward inp cols)
        ++ map dopp (segI internalForwardx internalBackward inp cols)
        ++ map dopp (segX internalForwardx internalBackward inp cols) /\
      length (segA internalForwardx internalBackward inp cols) = nnz (ANZ_mem inp) /\
      length (segB internalForwardx internalBackward inp cols) = nnz (BNZ_mem inp) /\
      length (segI internalForwardx internalBackward inp cols) = nnz (INZ_mem inp) /\
      length (segX internalForwardx internalBackward inp cols) = (J inp - 1) * q inp)).
Proof.
  intros H. destruct (run_length inp H) as [Hl HJ].
  split; [exact Hl|]. intros Hwf.
  assert (Hn : length (gradient res) =
               nnz (ANZ_mem inp) + nnz (BNZ_mem inp) + nnz (INZ_mem inp)
               + (J inp - 1) * q inp).
  { rewrite (grad_len_wf inp Hwf HJ) in Hl. apply Nat2Z.inj in Hl. exact Hl. }
  split; [exact Hn|]. split.
  - intros H1. rewrite Hn, H1. simpl. lia.
  - intros Hfin. destruct (run_finite inp H Hfin Hwf) as (cols & Hc & _ & Hg).
    exists cols. split; [exact Hc|]. rewrite Hg, !map_app.
    repeat split; auto using length_segA, length_segB, length_segI, length_segX.
Qed.

(** ** The objective *)

Lemma run_initk (inp : Input) (res : Output) :
  objectivex internalForwardx internalBackward inp = Some res ->
  lweights_finite inp = true ->
  exists cols, initk_cols inp = Some cols /\
               objective res = neg_loglik internalForwardx inp cols.
Proof.
  intros H Hfin. unfold objectivex in H.
  apply bind_Some in H. destruct H as ([] & _ & H).
  inv_bind H. inv_bind H. rewrite Hfin in H. cbn [negb] in H.
  inv_bind H. exists x1. split; [exact Hx1|].
  inv_bind H. inv_bind H. inv_bind H. inv_bind H. injection H as <-.
  reflexivity.
Qed.

(** C2: on the regular path the objective is the negated sum over the
    subjects of the sums over time of the logarithms of the scale factors,
    the entries of the [n x k] matrix that the forward recursion returns
    when it is called, as at line 47, with the transition matrix, the
    emission array, the initial vectors of the subjects and the
    observations. *)
Theorem objective_is_negated_loglik (inp : Input) (res : Output) :
  objectivex internalForwardx internalBackward inp = Some res ->
  lweights_finite inp = true ->
  exists cols,
    initk_cols inp = Some cols /\
    objective res =
      dopp (dsum (oK inp) (fun k =>
              dsum (oN inp) (fun t =>
                dlog (nth (t + k * oN inp)
                        (snd (internalForwardx (transitionMatrix inp) (emissionArray inp)
                                (eDims inp) (concat cols) (obsArray inp) (oDims inp)))
                        d0)))).
Proof.
  intros H Hfin. destruct (run_initk inp H Hfin) as (cols & Hc & Ho).
  exists cols. split; [exact Hc|]. rewrite Ho. reflexivity.
Qed.

(** ** The overflow guard *)

(** C3: for well-formed arguments, a non-finite entry of [exp(X * coef)]
    makes the call return the pair of [DBL_MAX] and a gradient of the full
    length filled with [-DBL_MAX], whatever the two recursions are;
    otherwise the call returns the regular pair. *)
Theorem overflow_returns_sentinel (inp : Input) :
  well_formed inp = true ->
  ((exists j k, j < J inp /\ k < oK inp /\ is_finite (expXcoef inp j k) = false) ->
   objectivex internalForwardx internalBackward inp =
   Some {| objective := dbl_max;
           gradient := repeat (dopp dbl_max)
                         (nnz (ANZ_mem inp) + nnz (BNZ_mem inp) + nnz (INZ_mem inp)
                          + (J inp - 1) * q inp) |}) /\
  ((forall j k, j < J inp -> k < oK inp -> is_finite (expXcoef inp j k) = true) ->
   exists res cols,
     objectivex internalForwardx internalBackward inp = Some res /\
     initk_cols inp = Some cols /\
     objective res = neg_loglik internalForwardx inp cols /\
     gradient res =
       map dopp (segA internalForwardx internalBackward inp cols
                 ++ segB internalForwardx internalBackward inp cols
                 ++ segI internalForwardx internalBackward inp cols
                 ++ segX internalForwardx internalBackward inp cols)).
Proof.
  intros Hwf. pose proof Hwf as Hwf'. unfold well_formed in Hwf'.
  apply andb_prop in Hwf'. destruct Hwf' as [Hm Hs].
  destruct (shapes_wf_spec inp Hs) as (HJ & _ & HP & _).
  split.
  - intros (j & k & Hj & Hk & Hnf).
    assert (Hfin : lweights_finite inp = false).
    { destruct (lweights_finite inp) eqn:E; [| reflexivity].
      rewrite (proj1 (lweights_finite_spec inp) E j k Hj Hk) in Hnf. discriminate. }
    rewrite (run_overflow inp Hfin HP).
    + rewrite (grad_len_wf inp Hm HJ), Nat2Z.id. reflexivity.
    + rewrite (grad_len_wf inp Hm HJ). apply Nat2Z.is_nonneg.
    + exact HJ.
  - intros Hall. apply lweights_finite_spec in Hall.
    destruct (run_total inp Hwf Hall) as (res & Hres).
    destruct (run_finite inp Hres Hall Hm) as (cols & Hc & Ho & Hg).
    exists res, cols. auto.
Qed.

(** ** The initial vectors of the subjects *)

Lemma nth_concat_uniform {B} (M : nat) (d : B) (ls : list (list B)) :
  (forall k, k < length ls -> length (nth k ls []) = M) ->
  length (concat ls) = M * length ls /\
  forall k s, k < length ls -> s < M ->
    nth (s + k * M) (concat ls) d = nth s (nth k ls []) d.
Proof.
  induction ls as [|l ls IH]; intros H.
  - simpl. split; [lia | intros k s Hk; simpl in Hk; lia].
  - assert (Hl : length l = M) by (apply (H 0); simpl; lia).
    destruct IH as [IHl IHn]. { intros k Hk. apply (H (S k)). simpl. lia. }
    split.
    + simpl. rewrite length_app, IHl, Hl. lia.
    + intros k s Hk Hs. simpl concat. destruct k as [|k].
      * simpl. rewrite Nat.add_0_r. apply app_nth1. lia.
      * rewrite app_nth2 by (rewrite Hl; simpl; lia).
        rewrite Hl. replace (s + S k * M - M) with (s + k * M) by (simpl; lia).
        simpl. apply IHn; [simpl in Hk; lia | exact Hs].
Qed.

(** C9: on the regular path the forward recursion is called with the
    [m x k] matrix of the initial vectors of the subjects, stored by
    columns: the objective is computed from the scale factors of this very
    call.  Every entry of the matrix belongs to a state of some block, and
    the entry of subject [k] for a state of block [jj] is the initial
    probability of the state multiplied by the mixture weight of the
    subject for block [jj]. *)
Theorem initk_is_weighted_init (inp : Input) (res : Output) :
  objectivex internalForwardx internalBackward inp = Some res ->
  lweights_finite inp = true ->
  exists cols,
    initk_cols inp = Some cols /\
    length (concat cols) = eM inp * oK inp /\
    (forall k jj i, k < oK inp -> jj < J inp -> i < nS inp jj ->
       nth (base inp jj + i + k * eM inp) (concat cols) d0 =
         initk cols (base inp jj + i) k /\
       initk cols (base inp jj + i) k =
         dmul (init inp (base inp jj + i)) (lweights inp jj k)) /\
    (forall k s, k < oK inp -> s < eM inp ->
       exists jj i, jj < J inp /\ i < nS inp jj /\ s = base inp jj + i) /\
    objective res =
      dopp (dsum (oK inp) (fun k =>
              dsum (oN inp) (fun t =>
                dlog (nth (t + k * oN inp)
                        (snd (internalForwardx (transitionMatrix inp) (emissionArray inp)
                                (eDims inp) (concat cols) (obsArray inp) (oDims inp)))
                        d0)))).
Proof.
  intros H Hfin. destruct (run_initk inp H Hfin) as (cols & Hc0 & Ho).
  exists cols. split; [exact Hc0|].
  destruct (initk_cols_spec inp Hc0) as [Hlen Hc].
  assert (Hu : forall k, k < length cols -> length (nth k cols []) = eM inp).
  { intros k Hk. rewrite Hlen in Hk. destruct (Hc k Hk) as [_ ->].
    rewrite length_map, length_seq. reflexivity. }
  destruct (@nth_concat_uniform D (eM inp) d0 cols Hu) as [HL HN].
  rewrite Hlen in HL, HN.
  split; [exact HL|]. split; [| split; [| rewrite Ho; reflexivity]].
  - intros k jj i Hk Hjj Hi.
    destruct (Hc k Hk) as [HM Hcol]. clear Hc.
    destruct (base_prefix inp Hjj) as [Hb Hcs].
    pose proof (prefix_le (numberOfStates inp) Hjj) as Hle.
    fold (nS inp jj) in Hle.
    split; [apply HN; [exact Hk | lia]|].
    unfold initk. rewrite Hcol.
    rewrite (nth_indep _ _ (dmul (init inp 0) (nth 0 (reparma
               (map (fun j => lweights inp j k) (seq 0 (J inp)))
               (numberOfStates inp)) d0)))
      by (rewrite length_map, length_seq; lia).
    rewrite (map_nth (fun s => dmul (init inp s) (nth s (reparma
               (map (fun j => lweights inp j k) (seq 0 (J inp)))
               (numberOfStates inp)) d0))).
    rewrite seq_nth by lia. simpl. f_equal.
    rewrite Hb, nth_reparma; try (rewrite ?length_map, ?length_seq; assumption).
    rewrite (nth_indep _ _ (lweights inp 0 k)) by (rewrite length_map, length_seq; exact Hjj).
    rewrite (map_nth (fun j => lweights inp j k)), seq_nth by exact Hjj. reflexivity.
  - intros k s Hk Hs. destruct (Hc k Hk) as [HM _]. rewrite HM in Hs.
    destruct (prefix_covers _ Hs) as (jj & Hjj & Hlo & Hhi).
    destruct (base_prefix inp Hjj) as [Hb _].
    exists jj, (s - prefix (numberOfStates inp) jj).
    split; [exact Hjj|]. split; [unfold nS; lia | rewrite Hb; lia].
Qed.

(** ** The reference column of the coefficients *)

(** C10: two calls whose arguments differ only in column 0 of the
    coefficient matrix return the same result. *)
Theorem reference_column_ignored (inp1 inp2 : Input) :
  agree_off_column0 inp1 inp2 ->
  objectivex internalForwardx internalBackward inp1 =
  objectivex internalForwardx internalBackward inp2.
Proof.
  intros H.
  assert (Hc : coef_mem inp1 = coef_mem inp2).
  { unfold agree_off_column0 in H.
    destruct H as (_ & _ & _ & _ & _ & _ & _ & _ & _ & _ & Hq & _ & Hn & Hs).
    unfold coef_mem, q, J. rewrite !skipn_firstn_comm, Hs, Hq, Hn. reflexivity. }
  destruct inp1, inp2. unfold agree_off_column0 in H. cbn in H.
  destruct H as (? & ? & ? & ? & ? & ? & ? & ? & ? & ? & ? & ? & ? & _). subst.
  cbv beta iota delta
    [objectivex grad_len lweights_finite lweights expXcoef coef X q J
     eM eP eR oK oN oR init transition emission obs ANZ_mem BNZ_mem INZ_mem
     ANZ BNZ INZ nS cumsumstate base initk_cols initk_col
     fwd alpha scales beta ll neg_loglik emis_all emis_other
     indA termA gradArow rowA passA nSym indB termB0 termB gradBrow rowB passB
     indI termI gradIrow rowI passI termX updX stepX passX
     transitionMatrix emissionArray eDims initialProbs obsArray oDims
     transNZ emissNZ initNZ nSymbols coefs_nrow X_ numberOfStates].
  rewrite Hc. reflexivity.
Qed.

(** * Further properties of the code *)

(** ** The layout of the blocks (lines 53, 61 and 163) *)

(** X1: the first state of block [jj], computed as
    [cumsumstate(jj) - numberOfStates(jj)], is the number of states of the
    blocks before; consecutive blocks are adjacent and every block ends
    inside the states the blocks add up to. *)
Theorem blocks_are_contiguous (inp : Input (D := D)) (jj : nat) :
  jj < J inp ->
  base inp jj = list_sum (firstn jj (numberOfStates inp)) /\
  cumsumstate inp jj = base inp jj + nS inp jj /\
  (S jj < J inp -> base inp (S jj) = cumsumstate inp jj) /\
  cumsumstate inp jj <= list_sum (numberOfStates inp).
Proof.
  intros Hjj. destruct (base_prefix inp Hjj) as [Hb Hc].
  split; [exact Hb|]. split; [rewrite Hb; exact Hc|]. split.
  - intros HS. destruct (base_prefix inp HS) as [Hb' _].
    rewrite Hb', Hc. apply prefix_S. exact Hjj.
  - rewrite Hc. apply prefix_le. exact Hjj.
Qed.

(** X2: the membership test of line 163 holds for exactly one block: every
    state below the sum of the block sizes lies in one block, and in no
    other. *)
Theorem state_in_one_block (inp : Input (D := D)) (s : nat) :
  s < list_sum (numberOfStates inp) ->
  exists jj,
    jj < J inp /\
    (base inp jj <=? s) && (s <? cumsumstate inp jj) = true /\
    forall jj', jj' < J inp ->
      (base inp jj' <=? s) && (s <? cumsumstate inp jj') = true -> jj' = jj.
Proof.
  intros Hs. destruct (prefix_covers _ Hs) as (jj & Hjj & Hlo & Hhi).
  exists jj. split; [exact Hjj|].
  destruct (base_prefix inp Hjj) as [Hb Hc]. split.
  - apply andb_true_intro. split; [apply Nat.leb_le | apply Nat.ltb_lt].
    + rewrite Hb. exact Hlo.
    + rewrite Hc. exact Hhi.
  - intros jj' Hjj' Hin. apply andb_prop in Hin. destruct Hin as [H1 H2].
    apply Nat.leb_le in H1. apply Nat.ltb_lt in H2.
    destruct (base_prefix inp Hjj') as [Hb' Hc']. rewrite Hb' in H1. rewrite Hc' in H2.
    destruct (Nat.lt_trichotomy jj' jj) as [Hlt|[Heq|Hgt]]; [| exact Heq |].
    + pose proof (@prefix_mono (numberOfStates inp) jj' jj Hlt ltac:(unfold J in Hjj; lia)).
      fold (nS inp jj') in *. unfold nS in *. lia.
    + pose proof (@prefix_mono (numberOfStates inp) jj jj' Hgt ltac:(unfold J in Hjj'; lia)).
      lia.
Qed.

(** ** What a pass leaves alone (lines 81-82, 124-125, 150-151, 164-168) *)

Lemma firstn_write (g : list D) (cg m : nat) (vals : list D) :
  m <= cg -> cg <= length g -> firstn m (write g cg vals) = firstn m g.
Proof.
  intros Hm Hc. unfold write.
  rewrite firstn_app, length_firstn, Nat.min_l by exact Hc.
  replace (m - cg) with 0 by lia. rewrite firstn_O, app_nil_r, firstn_firstn.
  rewrite Nat.min_l by exact Hm. reflexivity.
Qed.

Lemma skipn_write (g : list D) (cg m : nat) (vals : list D) :
  cg + length vals <= length g -> cg + length vals <= m ->
  skipn m (write g cg vals) = skipn m g.
Proof.
  intros Hc Hm. unfold write.
  rewrite skipn_app, length_firstn, Nat.min_l by lia.
  rewrite (skipn_all2 (firstn cg g)) by (rewrite length_firstn; lia).
  rewrite skipn_app, (skipn_all2 vals) by lia.
  simpl. rewrite skipn_skipn. f_equal. lia.
Qed.

Lemma assembles_frame (f : list D * nat -> option (list D * nat)) (seg : list D)
      (grad grad' : list D) (cg cg' : nat) :
  assembles f seg ->
  cg <= length grad ->
  f (grad, cg) = Some (grad', cg') ->
  cg <= cg' /\ cg' <= length grad /\ length grad' = length grad /\
  firstn cg grad' = firstn cg grad /\ skipn cg' grad' = skipn cg' grad.
Proof.
  intros Hf Hc H. destruct (Hf _ _ _ Hc H) as [Hl E]. injection E as -> ->.
  split; [lia|]. split; [exact Hl|]. split; [apply length_write, Hl|]. split.
  - apply firstn_write; lia.
  - apply skipn_write; lia.
Qed.

(** X3: a successful transition, emission or initial pass only writes the
    entries from the old to the new [countgrad]: [countgrad] does not
    decrease and stays inside the buffer, the buffer keeps its length, and
    the entries before the old and from the new [countgrad] on are as
    before. *)
Theorem pass_writes_its_window (inp : Input) (cols : list (list D))
        (grad grad' : list D) (cg cg' : nat) :
  cg <= length grad ->
  passA internalForwardx internalBackward inp cols (grad, cg) = Some (grad', cg') \/
  passB internalForwardx internalBackward inp cols (grad, cg) = Some (grad', cg') \/
  passI internalForwardx internalBackward inp cols (grad, cg) = Some (grad', cg') ->
  cg <= cg' /\ cg' <= length grad /\ length grad' = length grad /\
  firstn cg grad' = firstn cg grad /\ skipn cg' grad' = skipn cg' grad.
Proof.
  intros Hc [H|[H|H]].
  - exact (@assembles_frame _ _ _ _ _ _ (passA_assembles inp cols) Hc H).
  - exact (@assembles_frame _ _ _ _ _ _ (passB_assembles inp cols) Hc H).
  - exact (@assembles_frame _ _ _ _ _ _ (passI_assembles inp cols) Hc H).
Qed.

Lemma foldM_invariant_in {A S} (P : S -> Prop) (f : S -> A -> option S) (l : list A) :
  (forall s a s', In a l -> P s -> f s a = Some s' -> P s') ->
  forall s s', P s -> foldM f l s = Some s' -> P s'.
Proof.
  induction l as [|a l IH]; intros Hf s s' Hs H; simpl in H.
  - injection H as <-. exact Hs.
  - inv_bind H. apply (IH (fun s0 b s1 Hb => Hf s0 b s1 (or_intror Hb)) x s'); [| exact H].
    apply (Hf s a x); [left; reflexivity | exact Hs | exact Hx].
Qed.

(** X4: a successful mixture-coefficient pass leaves [countgrad] and the
    length of the buffer as they are, and changes no entry before
    [countgrad] nor from [countgrad + (J - 1) * q] on: the entries of the
    three earlier passes are never overwritten. *)
Theorem mixture_pass_keeps_the_rest (inp : Input) (cols : list (list D))
        (grad grad' : list D) (cg cg' : nat) :
  passX internalForwardx internalBackward inp cols (grad, cg) = Some (grad', cg') ->
  cg' = cg /\ length grad' = length grad /\
  firstn cg grad' = firstn cg grad /\
  skipn (cg + (J inp - 1) * q inp) grad' = skipn (cg + (J inp - 1) * q inp) grad.
Proof.
  intros H.
  pose (P := fun st : list D * nat =>
    snd st = cg /\ length (fst st) = length grad /\
    firstn cg (fst st) = firstn cg grad /\
    skipn (cg + (J inp - 1) * q inp) (fst st) = skipn (cg + (J inp - 1) * q inp) grad).
  assert (HP : P (grad', cg')).
  { revert H. unfold passX. apply (foldM_invariant_in P); [| repeat split].
    intros s jj s' Hjj Hs. apply in_seq in Hjj.
    apply (foldM_invariant P); [| exact Hs]. clear s s' Hs.
    intros s k s' Hs. apply (foldM_invariant P); [| exact Hs]. clear s s' Hs.
    intros [g c] j s' (Hc & Hl & Hf & Hk) Hstep. simpl in Hc, Hl, Hf, Hk. subst c.
    unfold stepX in Hstep. inv_bind Hstep. injection Hstep as <-.
    apply guard_Some, andb_prop in Hx. destruct Hx as [_ Hx]. apply Nat.leb_le in Hx.
    assert (Hend : cg + q inp * (jj - 1) + q inp <= cg + (J inp - 1) * q inp).
    { rewrite <- Nat.add_assoc. apply Nat.add_le_mono_l.
      rewrite <- Nat.mul_succ_r, Nat.mul_comm. apply Nat.mul_le_mono_r. lia. }
    assert (Hbeg : cg <= cg + q inp * (jj - 1)) by apply Nat.le_add_r.
    set (off := cg + q inp * (jj - 1)) in *.
    unfold P. simpl. split; [reflexivity|]. split; [| split].
    - rewrite length_write; [exact Hl|]. rewrite length_updX. exact Hx.
    - rewrite firstn_write; [exact Hf | exact Hbeg | lia].
    - rewrite skipn_write; [exact Hk | |]; rewrite length_updX; [exact Hx | exact Hend]. }
  destruct HP as (H1 & H2 & H3 & H4). simpl in *. auto.
Qed.

(** ** What a returning call tells about its arguments (lines 20-41) *)

End Theory.

(** * The theorems at the rational example *)

Import QcInst.

Lemma example_run : objectivex fwd_q bwd_q example = Some example_res.
Proof.
  unfold example_res.
  destruct (objectivex fwd_q bwd_q example) eqn:E; [reflexivity|].
  vm_compute in E. discriminate E.
Qed.

Lemma example_initk : initk_cols example = Some example_cols.
Proof.
  unfold example_cols.
  destruct (initk_cols example) eqn:E; [reflexivity|].
  vm_compute in E. discriminate E.
Qed.

Lemma example_finite : lweights_finite example = true.
Proof. vm_compute. reflexivity. Qed.

Lemma example_masks : masks_wf example = true.
Proof. vm_compute. reflexivity. Qed.

Example example_value :
  this (objective example_res) = (1524941 # 471408)%Q /\
  map this (gradient example_res) =
    [676 # 27475; -2019 # 27475; -342 # 5495; 293 # 1570; 3742 # 5495;
     503 # 27475; 19183 # 49455]%Q.
Proof. vm_compute. split; reflexivity. Qed.

Example example_rows :
  (indA example 0 0, offA example 0 0) = ([1], 0) /\
  (indA example 0 1, offA example 0 1) = ([0], 1) /\
  (indB example 0 0, offB example 0 0) = ([0], 2) /\
  (indB example 0 1, offB example 0 1) = ([1], 3) /\
  (indB example 0 2, offB example 0 2) = ([0], 4) /\
  (indI example 0, offI example 0) = ([0], 5) /\
  offX example 1 = 6.
Proof. vm_compute. repeat split; reflexivity. Qed.

Example example_weights :
  map (fun k => map (fun j => this (lweights example j k)) (seq 0 2)) (seq 0 2) =
  [[4 # 9; 5 # 9]; [1 # 3; 2 # 3]]%Q.
Proof. vm_compute. reflexivity. Qed.


Lemma Qc_div_same (a : Qc) : a <> 0%Qc -> (a / a = 1)%Qc.
Proof. intros H. unfold Qcdiv. apply Qcmult_inv_r, H. Qed.

Lemma Qc_exp_pos (x : Qc) : (0 < qexp x)%Qc.
Proof.
  unfold qexp, Qclt, Qcplus, Qcmult, Q2Qc. cbn [this].
  rewrite !Qred_correct.
  apply Qlt_le_trans with (1 + 0)%Q; [reflexivity|].
  apply Qplus_le_compat; [apply Qle_refl|].
  destruct (this x) as [n d]. unfold Qle, Qmult. simpl. nia.
Qed.



Lemma Qc_lt_neq (a : Qc) : (0 < a)%Qc -> a <> 0%Qc.
Proof. intros H E. apply (Qclt_not_eq _ _ H). symmetry. exact E. Qed.

Lemma gradient_length_and_layout_witness :
  objectivex fwd_q bwd_q example = Some example_res /\
  masks_wf example = true /\
  length (gradient example_res) =
    nnz (ANZ_mem example) + nnz (BNZ_mem example) + nnz (INZ_mem example)
    + (J example - 1) * q example.
Proof.
  split; [exact example_run|]. split; [vm_compute; reflexivity|].
  apply (proj2 (gradient_length_and_layout fwd_q bwd_q example example_run)).
  vm_compute. reflexivity.
Defined.

Lemma objective_is_negated_loglik_witness :
  lweights_finite example = true /\
  exists cols,
    initk_cols example = Some cols /\
    objective example_res =
      dopp (dsum (oK example) (fun k =>
              dsum (oN example) (fun t =>
                dlog (nth (t + k * oN example)
                        (snd (fwd_q (transitionMatrix example) (emissionArray example)
                                (eDims example) (concat cols) (obsArray example)
                                (oDims example)))
                        d0)))).
Proof.
  split; [vm_compute; reflexivity|].
  apply (objective_is_negated_loglik fwd_q bwd_q example example_run).
  vm_compute. reflexivity.
Defined.

Lemma overflow_returns_sentinel_witness :
  well_formed example_overflow = true /\
  objectivex fwd_q bwd_q example_overflow =
  Some {| objective := dbl_max;
          gradient := repeat (dopp dbl_max)
                        (nnz (ANZ_mem example_overflow) + nnz (BNZ_mem example_overflow)
                         + nnz (INZ_mem example_overflow)
                         + (J example_overflow - 1) * q example_overflow) |}.
Proof.
  split; [vm_compute; reflexivity|].
  apply (overflow_returns_sentinel fwd_q bwd_q example_overflow).
  - vm_compute. reflexivity.
  - exists 1, 0. split; [vm_compute; lia|]. split; [vm_compute; lia|].
    vm_compute. reflexivity.
Defined.

Lemma transition_segment_witness :
  0 < J example /\ 0 < nS example 0 /\
  firstn (length (indA example 0 0)) (skipn (offA example 0 0) (gradient example_res)) =
  map dopp (spec_segA fwd_q bwd_q example example_cols 0 0).
Proof.
  split; [vm_compute; lia|]. split; [vm_compute; lia|].
  apply (transition_segment (AD := QcArith) fwd_q bwd_q Qcrt example example_run example_initk).
  - vm_compute. reflexivity.
  - vm_compute. reflexivity.
  - vm_compute. lia.
  - vm_compute. lia.
Defined.

Lemma emission_segment_witness :
  0 < oR example /\ 1 < eM example /\
  firstn (length (indB example 0 1)) (skipn (offB example 0 1) (gradient example_res)) =
  map dopp (spec_segB fwd_q bwd_q example example_cols 0 1).
Proof.
  split; [vm_compute; lia|]. split; [vm_compute; lia|].
  apply (emission_segment (AD := QcArith) fwd_q bwd_q Qcrt example example_run example_initk).
  - vm_compute. reflexivity.
  - vm_compute. reflexivity.
  - vm_compute. lia.
  - vm_compute. lia.
Defined.

Lemma initial_segment_witness :
  0 < J example /\
  firstn (length (indI example 0)) (skipn (offI example 0) (gradient example_res)) =
  map dopp (spec_segI fwd_q bwd_q example example_cols 0).
Proof.
  split; [vm_compute; lia|].
  apply (initial_segment (AD := QcArith) fwd_q bwd_q Qcrt example example_run example_initk).
  - vm_compute. reflexivity.
  - vm_compute. reflexivity.
  - vm_compute. lia.
Defined.

Lemma mixture_segment_witness :
  1 < J example /\
  firstn (q example) (skipn (offX example 1) (gradient example_res)) =
  map dopp (spec_segX fwd_q bwd_q example example_cols 1) /\
  offX example 1 + q example * (J example - 1) = length (gradient example_res).
Proof.
  split; [vm_compute; lia|].
  apply (mixture_segment (AD := QcArith) fwd_q bwd_q Qcrt example example_run example_initk).
  - vm_compute. reflexivity.
  - vm_compute. reflexivity.
  - lia.
  - vm_compute. lia.
Defined.


Lemma initk_is_weighted_init_witness :
  lweights_finite example = true /\
  exists cols,
    initk_cols example = Some cols /\
    length (concat cols) = eM example * oK example /\
    (forall k jj i, k < oK example -> jj < J example -> i < nS example jj ->
       nth (base example jj + i + k * eM example) (concat cols) d0 =
         initk cols (base example jj + i) k /\
       initk cols (base example jj + i) k =
         dmul (init example (base example jj + i)) (lweights example jj k)) /\
    (forall k s, k < oK example -> s < eM example ->
       exists jj i, jj < J example /\ i < nS example jj /\ s = base example jj + i) /\
    objective example_res =
      dopp (dsum (oK example) (fun k =>
              dsum (oN example) (fun t =>
                dlog (nth (t + k * oN example)
                        (snd (fwd_q (transitionMatrix example) (emissionArray example)
                                (eDims example) (concat cols) (obsArray example)
                                (oDims example)))
                        d0)))).
Proof.
  split; [vm_compute; reflexivity|].
  apply (initk_is_weighted_init fwd_q bwd_q example example_run).
  vm_compute. reflexivity.
Defined.

Lemma reference_column_ignored_witness :
  agree_off_column0 example example_column0 /\
  objectivex fwd_q bwd_q example = objectivex fwd_q bwd_q example_column0.
Proof.
  assert (H : agree_off_column0 example example_column0)
    by (unfold agree_off_column0; repeat split; reflexivity).
  split; [exact H|]. apply (reference_column_ignored fwd_q bwd_q H).
Defined.

(** * The further properties at the rational examples *)

Import QcMore.

Lemma Qc_exp_nonzero (x : Qc) : qexp x <> 0%Qc.
Proof. apply Qc_lt_neq, Qc_exp_pos. Qed.

Lemma example_empty_run :
  objectivex fwd_q bwd_q example_empty = Some example_empty_res.
Proof.
  unfold example_empty_res.
  destruct (objectivex fwd_q bwd_q example_empty) eqn:E; [reflexivity|].
  vm_compute in E. discriminate E.
Qed.

Lemma example_zero_covariate_run :
  objectivex fwd_q bwd_q example_zero_covariate = Some example_zero_covariate_res.
Proof.
  unfold example_zero_covariate_res.
  destruct (objectivex fwd_q bwd_q example_zero_covariate) eqn:E; [reflexivity|].
  vm_compute in E. discriminate E.
Qed.

Lemma example_zero_covariate_initk :
  initk_cols example_zero_covariate = Some example_zero_covariate_cols.
Proof.
  unfold example_zero_covariate_cols.
  destruct (initk_cols example_zero_covariate) eqn:E; [reflexivity|].
  vm_compute in E. discriminate E.
Qed.

Lemma example_single_initk : initk_cols example_single = Some example_single_cols.
Proof.
  unfold example_single_cols.
  destruct (initk_cols example_single) eqn:E; [reflexivity|].
  vm_compute in E. discriminate E.
Qed.

Lemma example_passA_run :
  passA fwd_q bwd_q example example_cols (repeat 0%Qc 7, 0) =
  Some (fst example_after_passA, snd example_after_passA).
Proof.
  unfold example_after_passA.
  destruct (passA fwd_q bwd_q example example_cols (repeat 0%Qc 7, 0)) as [[g c]|] eqn:E;
    [reflexivity|].
  vm_compute in E. discriminate E.
Qed.

Lemma example_passX_run :
  passX fwd_q bwd_q example example_cols (repeat (qq 7 1) 8, 6) =
  Some (fst example_after_passX, snd example_after_passX).
Proof.
  unfold example_after_passX.
  destruct (passX fwd_q bwd_q example example_cols (repeat (qq 7 1) 8, 6)) as [[g c]|] eqn:E;
    [reflexivity|].
  vm_compute in E. discriminate E.
Qed.

Lemma blocks_are_contiguous_witness :
  0 < J example /\
  base example 0 = list_sum (firstn 0 (numberOfStates example)) /\
  cumsumstate example 0 = base example 0 + nS example 0 /\
  (1 < J example -> base example 1 = cumsumstate example 0) /\
  cumsumstate example 0 <= list_sum (numberOfStates example).
Proof.
  split; [vm_compute; lia|].
  apply (blocks_are_contiguous example). vm_compute. lia.
Defined.

Lemma state_in_one_block_witness :
  2 < list_sum (numberOfStates example) /\
  exists jj,
    jj < J example /\
    (base example jj <=? 2) && (2 <? cumsumstate example jj) = true /\
    forall jj', jj' < J example ->
      (base example jj' <=? 2) && (2 <? cumsumstate example jj') = true -> jj' = jj.
Proof.
  split; [vm_compute; lia|].
  apply (state_in_one_block example). vm_compute. lia.
Defined.

Lemma pass_writes_its_window_witness :
  0 <= snd example_after_passA /\
  snd example_after_passA <= length (repeat 0%Qc 7) /\
  length (fst example_after_passA) = length (repeat 0%Qc 7) /\
  firstn 0 (fst example_after_passA) = firstn 0 (repeat 0%Qc 7) /\
  skipn (snd example_after_passA) (fst example_after_passA) =
  skipn (snd example_after_passA) (repeat 0%Qc 7).
Proof.
  apply (@pass_writes_its_window _ _ fwd_q bwd_q example example_cols
           (repeat 0%Qc 7) (fst example_after_passA) 0 (snd example_after_passA)).
  - vm_compute. lia.
  - left. exact example_passA_run.
Defined.

Lemma mixture_pass_keeps_the_rest_witness :
  snd example_after_passX = 6 /\
  length (fst example_after_passX) = length (repeat (qq 7 1) 8) /\
  firstn 6 (fst example_after_passX) = firstn 6 (repeat (qq 7 1) 8) /\
  skipn (6 + (J example - 1) * q example) (fst example_after_passX) =
  skipn (6 + (J example - 1) * q example) (repeat (qq 7 1) 8).
Proof.
  apply (mixture_pass_keeps_the_rest fwd_q bwd_q example example_cols).
  exact example_passX_run.
Defined.

Lemma jacobian_product_sums_to_zero_witness :
  dsum 2 (fun _ => qq 1 2) = 1%Qc /\
  dsum 2 (fun a => nth a (matvec 2 (jacobian (fun _ => qq 1 2)) [qq 3 1; qq 5 1]) 0%Qc)
  = 0%Qc.
Proof.
  assert (H : dsum 2 (fun _ : nat => qq 1 2) = 1%Qc)
    by (apply Qc_is_canon; vm_compute; reflexivity).
  split; [exact H|].
  apply (jacobian_product_sums_to_zero (AD := QcArith) Qcrt 2 (fun _ => qq 1 2)
           [qq 3 1; qq 5 1] H).
Defined.

Lemma no_subject_gives_zero_witness :
  oK example_empty = 0 /\
  objective example_empty_res = 0%Qc /\
  Forall (fun x => x = 0%Qc) (gradient example_empty_res).
Proof.
  split; [vm_compute; reflexivity|].
  apply (no_subject_gives_zero (AD := QcArith) fwd_q bwd_q Qcrt example_empty
           example_empty_run).
  vm_compute. reflexivity.
Defined.

Lemma zero_covariate_zero_gradient_witness :
  (forall k, k < oK example_zero_covariate -> X example_zero_covariate k 0 = 0%Qc) /\
  nth 0 (firstn (q example_zero_covariate)
           (skipn (offX example_zero_covariate 1)
              (gradient example_zero_covariate_res))) 0%Qc = 0%Qc.
Proof.
  assert (H : forall k, k < oK example_zero_covariate ->
                        X example_zero_covariate k 0 = 0%Qc).
  { intros [|[|k]] Hk; [reflexivity | reflexivity |].
    exfalso. vm_compute in Hk. lia. }
  split; [exact H|].
  apply (zero_covariate_zero_gradient (AD := QcArith) fwd_q bwd_q Qcrt
           example_zero_covariate example_zero_covariate_run
           example_zero_covariate_initk (jj := 1) (c := 0)).
  - vm_compute. reflexivity.
  - vm_compute. reflexivity.
  - lia.
  - vm_compute. lia.
  - vm_compute. lia.
  - exact H.
Defined.

Lemma single_block_weight_is_one_witness :
  J example_single = 1 /\ lweights example_single 0 1 = 1%Qc.
Proof.
  split; [vm_compute; reflexivity|].
  apply (single_block_weight_is_one (AD := QcArith) Qcrt Qc_div_same Qc_exp_nonzero
           example_single 1).
  vm_compute. reflexivity.
Defined.

Lemma single_block_initk_is_init_witness :
  J example_single = 1 /\
  initk example_single_cols 2 1 = init example_single 2.
Proof.
  split; [vm_compute; reflexivity|].
  apply (single_block_initk_is_init (AD := QcArith) Qcrt Qc_div_same Qc_exp_nonzero
           example_single (cols := example_single_cols) (k := 1) (s := 2)).
  - vm_compute. reflexivity.
  - exact example_single_initk.
  - vm_compute. lia.
  - vm_compute. lia.
Defined.


(** * The length of the gradient for masks outside the data model *)

Lemma example_mask_two_run :
  objectivex fwd_q bwd_q example_mask_two = Some example_mask_two_res.
Proof.
  unfold example_mask_two_res.
  destruct (objectivex fwd_q bwd_q example_mask_two) eqn:E; [reflexivity|].
  vm_compute in E. discriminate E.
Qed.

Lemma example_cross_block_run :
  objectivex fwd_q bwd_q example_cross_block = Some example_cross_block_res.
Proof.
  unfold example_cross_block_res.
  destruct (objectivex fwd_q bwd_q example_cross_block) eqn:E; [reflexivity|].
  vm_compute in E. discriminate E.
Qed.

Lemma example_cross_block_initk :
  initk_cols example_cross_block = Some example_cross_block_cols.
Proof.
  unfold example_cross_block_cols.
  destruct (initk_cols example_cross_block) eqn:E; [reflexivity|].
  vm_compute in E. discriminate E.
Qed.

(** C1, as the claim states it, fails for masks outside the data model.
    With a 2 in the transition mask the call returns a gradient of length
    8, one more than the nonzero counts and [(J - 1) * q] add up to.  With
    an indicator mask that marks a transition between two blocks the
    length is the one of the claim, but the transition pass writes one
    entry less than the mask counts: the mixture-coefficient entry lies at
    position 6, and the last position holds the zero the vector was
    created with. *)
Lemma gradient_length_counterexample :
  (objectivex fwd_q bwd_q example_mask_two = Some example_mask_two_res /\
   length (gradient example_mask_two_res) = 8 /\
   nnz (ANZ_mem example_mask_two) + nnz (BNZ_mem example_mask_two)
   + nnz (INZ_mem example_mask_two)
   + (J example_mask_two - 1) * q example_mask_two = 7) /\
  (objectivex fwd_q bwd_q example_cross_block = Some example_cross_block_res /\
   initk_cols example_cross_block = Some example_cross_block_cols /\
   lweights_finite example_cross_block = true /\
   mask01 (ANZ_mem example_cross_block) && mask01 (BNZ_mem example_cross_block)
   && mask01 (INZ_mem example_cross_block) = true /\
   length (gradient example_cross_block_res) =
     nnz (ANZ_mem example_cross_block) + nnz (BNZ_mem example_cross_block)
     + nnz (INZ_mem example_cross_block)
     + (J example_cross_block - 1) * q example_cross_block /\
   length (segA fwd_q bwd_q example_cross_block example_cross_block_cols) = 2 /\
   nnz (ANZ_mem example_cross_block) = 3 /\
   map this (map dopp (segX fwd_q bwd_q example_cross_block example_cross_block_cols)) =
     [19183 # 49455]%Q /\
   map this (skipn 6 (gradient example_cross_block_res)) = [19183 # 49455; 0]%Q /\
   skipn (length (gradient example_cross_block_res)
          - (J example_cross_block - 1) * q example_cross_block)
         (gradient example_cross_block_res)
   <> map dopp (segX fwd_q bwd_q example_cross_block example_cross_block_cols)).
Proof.
  split.
  - split; [exact example_mask_two_run|]. split; vm_compute; reflexivity.
  - split; [exact example_cross_block_run|].
    split; [exact example_cross_block_initk|].
    repeat (split; [vm_compute; reflexivity|]).
    intros E. apply (f_equal (map this)) in E. vm_compute in E. discriminate E.
Qed.

(** * The mixture weights in binary64 *)

Import Binary64.

Example binary64_exp_log : exp_log_samples = exp_log_expected.
Proof. vm_compute. reflexivity. Qed.

